(** * git-branch-cleanup: merge detection, verified against [cmd/main.go]

    A shallow embedding of the final variant of the tool ([cmd/main.go]):
    the diff normalizer [removeGitShaFromGitDiff], the fingerprint cache
    [getCommitDiff], the merge detector [findMerged] and the reporting
    loop of [main].

    Modelling conventions.
    - Go strings are byte strings: [string] (a list of [ascii]).
    - The [git] child processes are the only source of input.  They are
      an oracle [git : list string -> cmd_result] from an argument vector
      to the process's standard output or its failure; every call is
      appended to a trace kept in the state.
    - [float32] scores are rationals ([Q]); the program only compares
      them with [>] and with the constant [1.0].
    - The string-similarity function of the [beda] package is not part of
      the sources; the detector is parameterised by it
      ([JaroWinklerDistance]).
    - A Go function returning [(T, error)] that may also panic is a
      computation in the monad [M]. *)

From Stdlib Require Import Ascii QArith.
From stdpp Require Import gmap strings list fin_maps.

Local Open Scope string_scope.
Local Open Scope list_scope.

(* ===================================================================== *)
(** ** Strings: the functions of Go's [strings] package used by the tool *)
(* ===================================================================== *)

Definition newline : ascii := "010"%char.
Definition nl : string := String newline "".

(** [strings.TrimSpace] on the six ASCII white-space bytes (tab, line
    feed, vertical tab, form feed, carriage return, space).  The
    multi-byte Unicode spaces that Go also trims are outside the model. *)
Definition isSpace (c : ascii) : bool := Ascii.is_space c.

Fixpoint TrimLeft (s : string) : string :=
  match s with
  | String c s' => if isSpace c then TrimLeft s' else s
  | EmptyString => EmptyString
  end.

Fixpoint TrimRight (s : string) : string :=
  match s with
  | String c s' =>
      match TrimRight s' with
      | EmptyString => if isSpace c then EmptyString else String c EmptyString
      | t => String c t
      end
  | EmptyString => EmptyString
  end.

Definition TrimSpace (s : string) : string := TrimRight (TrimLeft s).

(** [strip_prefix p s] is [Some rest] when [s = p ++ rest]. *)
Fixpoint strip_prefix (p s : string) : option string :=
  match p, s with
  | EmptyString, _ => Some s
  | String a p', String b s' =>
      if Ascii.eqb a b then strip_prefix p' s' else None
  | String _ _, EmptyString => None
  end.

(** [strings.TrimPrefix]. *)
Definition TrimPrefix (s p : string) : string :=
  match strip_prefix p s with
  | Some rest => rest
  | None => s
  end.

(** [strings.Split(s, sep)] for a one-byte separator [sep]. *)
Fixpoint Split (s : string) (sep : ascii) : list string :=
  match s with
  | EmptyString => [EmptyString]
  | String c s' =>
      if Ascii.eqb c sep then EmptyString :: Split s' sep
      else match Split s' sep with
           | x :: xs => String c x :: xs
           | [] => [String c EmptyString]
           end
  end.

(** [strings.Join]. *)
Fixpoint Join (elems : list string) (sep : string) : string :=
  match elems with
  | [] => EmptyString
  | [x] => x
  | x :: rest => x +:+ sep +:+ Join rest sep
  end.

(** [strings.SplitN(s, sep, 2)]: cut at the first occurrence of [sep]. *)
Fixpoint SplitN2 (s sep : string) : list string :=
  match strip_prefix sep s with
  | Some rest => [EmptyString; rest]
  | None =>
      match s with
      | EmptyString => [EmptyString]
      | String c s' =>
          match SplitN2 s' sep with
          | [a; b] => [String c a; b]
          | _ => [s]
          end
      end
  end.

(** [len(s)]. *)
Definition len (s : string) : Z := Z.of_nat (String.length s).

(* ===================================================================== *)
(** ** Regular expressions

    The four patterns of the program are sequences of literals, bounded
    repetitions of a character class, greedy stars of a character class,
    one capture group and the end anchor.  All four start with [^], which
    without the [m] flag matches at offset 0 only: a [regexp] below is
    the pattern after its leading [^], and is only ever tried at
    offset 0. *)
(* ===================================================================== *)

Inductive item : Type :=
  | Lit (s : string)                  (* literal text *)
  | Rep (n : nat) (cls : ascii -> bool)   (* cls{n} *)
  | Star (cls : ascii -> bool)        (* cls*, greedy *)
  | Open                              (* "(" of group 1 *)
  | Close                             (* ")" of group 1 *)
  | Eot.                              (* $ *)

Definition regexp := list item.

Definition in_range (lo hi : nat) (c : ascii) : bool :=
  (lo <=? nat_of_ascii c)%nat && (nat_of_ascii c <=? hi)%nat.

(** [[0-9]] *)
Definition digit (c : ascii) : bool := in_range 48 57 c.
(** [[0-9a-f]] *)
Definition hex (c : ascii) : bool := in_range 48 57 c || in_range 97 102 c.
(** [0] *)
Definition zero (c : ascii) : bool := Ascii.eqb c "0"%char.
(** [.] : any byte but a line feed *)
Definition dot (c : ascii) : bool := negb (Ascii.eqb c newline).
(** [[^@]] *)
Definition notAt (c : ascii) : bool := negb (Ascii.eqb c "@"%char).

Fixpoint rep (n : nat) (cls : ascii -> bool) (s : string) : option string :=
  match n with
  | O => Some s
  | S n' =>
      match s with
      | String c s' => if cls c then rep n' cls s' else None
      | EmptyString => None
      end
  end.

(** Greedy star with backtracking: take as many bytes of the class as
    possible, and give bytes back until the continuation [k] matches. *)
Fixpoint star {R : Type} (cls : ascii -> bool) (k : string -> option R)
    (s : string) : option R :=
  match s with
  | String c s' =>
      if cls c then
        match star cls k s' with
        | Some r => Some r
        | None => k s
        end
      else k s
  | EmptyString => k s
  end.

(** The text consumed between [from] and its suffix [to]. *)
Definition consumed (from to : string) : string :=
  String.substring 0 (String.length from - String.length to) from.

(** [run re opened cap s] matches [re] against a prefix of [s]; the
    result is the text of group 1 (when the group took part) and the
    unmatched rest of [s]. *)
Fixpoint run (re : regexp) (opened : option string) (cap : option string)
    (s : string) : option (option string * string) :=
  match re with
  | [] => Some (cap, s)
  | Lit l :: re' =>
      match strip_prefix l s with
      | Some s' => run re' opened cap s'
      | None => None
      end
  | Rep n cls :: re' =>
      match rep n cls s with
      | Some s' => run re' opened cap s'
      | None => None
      end
  | Star cls :: re' => star cls (run re' opened cap) s
  | Open :: re' => run re' (Some s) cap s
  | Close :: re' =>
      run re' opened
        (match opened with Some o => Some (consumed o s) | None => cap end) s
  | Eot :: re' =>
      match s with
      | EmptyString => run re' opened cap s
      | String _ _ => None
      end
  end.

(** Replacement templates: literal text and [$1]. *)
Inductive piece : Type :=
  | Text (s : string)
  | Group1.

Definition template := list piece.

Fixpoint expand (t : template) (cap : option string) : string :=
  match t with
  | [] => EmptyString
  | Text s :: t' => s +:+ expand t' cap
  | Group1 :: t' => default EmptyString cap +:+ expand t' cap
  end.

(** [re.ReplaceAllString(src, repl)] for a pattern anchored with [^]:
    the only possible match starts at offset 0; it is replaced by the
    expanded template and the rest of [src] is copied. *)
Definition ReplaceAllString (re : regexp) (src : string) (repl : template)
    : string :=
  match run re None None src with
  | Some (cap, rest) => expand repl cap +:+ rest
  | None => src
  end.

(* ===================================================================== *)
(** ** The diff normalizer *)
(* ===================================================================== *)

(** [^index [0-9a-f]{8}\.\.[0-9a-f]{8} ([0-9]{6})$] *)
Definition indexRegxp : regexp :=
  [Lit "index "; Rep 8 hex; Lit ".."; Rep 8 hex; Lit " ";
   Open; Rep 6 digit; Close; Eot].

(** [^index 0{8}\.\..*$] *)
Definition indexRegxpNewFile : regexp :=
  [Lit "index "; Rep 8 zero; Lit ".."; Star dot; Eot].

(** [^index [0-9a-f]{8}\.\..*$] *)
Definition indexRegxpDeleteFile : regexp :=
  [Lit "index "; Rep 8 hex; Lit ".."; Star dot; Eot].

(** [^@@ [^@]* @@] *)
Definition changeLocation : regexp :=
  [Lit "@@ "; Star notAt; Lit " @@"].

(** The body of the loop of [removeGitShaFromGitDiff]. *)
Definition normalizeLine (l : string) : string :=
  let l := ReplaceAllString indexRegxp l [Text "index zzzzzzzz..zzzzzzzz "; Group1] in
  let l := ReplaceAllString indexRegxpNewFile l [Text "index 00000000..zzzzzzzz"] in
  let l := ReplaceAllString indexRegxpDeleteFile l [Text "index zzzzzzzz..00000000"] in
  let l := ReplaceAllString changeLocation l [Text "@@ ... @@"] in
  l.

Definition removeGitShaFromGitDiff (gitDiff : string) : string :=
  let lines := Split gitDiff newline in
  let lines := map normalizeLine lines in
  Join lines nl +:+ nl.

(* ===================================================================== *)
(** ** Data model *)
(* ===================================================================== *)

(** The result of running a child process with [cmd.Output()] or
    [cmd.Run()]: its standard output, or its failure. *)
Inductive cmd_result : Type :=
  | Stdout (out : string)
  | Failed (err : string).

Record CommitDiff : Type := mkCommitDiff {
  Sha : string;
  Subject : string;
  Diff : string
}.

Record PotentialMerge : Type := mkPotentialMerge {
  Branch : string;
  MergedSha : string;
  Merged : bool;
  SubjectScore : Q;
  DiffScore : Q;
  DiffSize : Z;
  NumCommits : Z;
  DiffCmd : string
}.

Record opts : Type := mkOpts {
  Verbose : bool;
  Version : bool;
  Perfect : bool;
  MinSubjectScore : Q;
  MinDiffScore : Q
}.

(** What the program writes, one constructor per format string. *)
Inductive line : Type :=
  | ErrIgnoring (branch err : string)
      (* stderr: "ignoring %s due to: %s\n" *)
  | ErrDie (msg : string) (arg : string)
      (* stderr, by [die] *)
  | OutCleanlyMerged (branch sha : string)
      (* "%s was cleanly merged under %s\n" *)
  | OutDeleting (branch : string)
      (* "deleting branch %s\n" *)
  | OutMerged (branch sha : string) (subject diff : Q)
      (* "%s was merged under %s (subject score: %f; diff score %f)\n" *)
  | OutPotentiallyMerged (branch sha : string) (subject diff : Q)
      (* "%s was **potentially** merged under %s (...)\n" *)
  | OutWarning (branch : string) (commits : Z)
      (* "WARNING: %s contains %d commits, ...\n" *)
  | OutText (s : string)
      (* "%s\n" *)
  | OutDeleteHint (branch : string)
      (* "git branch -D %s\n" *)
  | OutBlank.
      (* "\n" *)

(** The state of one run: the global [CommitDiffCache] (a nil map until
    the first lookup), the child processes started so far and the lines
    written so far, both oldest first. *)
Record world : Type := mkWorld {
  CommitDiffCache : option (gmap string CommitDiff);
  trace : list (list string);
  written : list line
}.

Definition initial : world :=
  {| CommitDiffCache := None; trace := []; written := [] |}.

(** How a call ends: a value, a returned [error], a panic, or
    [os.Exit]. *)
Inductive outcome (A : Type) : Type :=
  | Ret (a : A)
  | Error (err : string)
  | Panicked (msg : string)
  | Exited (code : Z).
Arguments Ret {A} a.
Arguments Error {A} err.
Arguments Panicked {A} msg.
Arguments Exited {A} code.

Definition M (A : Type) : Type := world -> outcome A * world.

Definition ret {A} (a : A) : M A := fun w => (Ret a, w).

Definition bind {A B} (m : M A) (k : A -> M B) : M B :=
  fun w =>
    match m w with
    | (Ret a, w') => k a w'
    | (Error e, w') => (Error e, w')
    | (Panicked p, w') => (Panicked p, w')
    | (Exited c, w') => (Exited c, w')
    end.

Notation "x <- m ;; k" := (bind m (fun x => k))
  (at level 100, m at level 90, right associativity).
Notation "m ;;; k" := (bind m (fun _ => k))
  (at level 100, right associativity).

Definition fail {A} (err : string) : M A := fun w => (Error err, w).
Definition panic {A} (msg : string) : M A := fun w => (Panicked msg, w).
Definition exit {A} (code : Z) : M A := fun w => (Exited code, w).

Definition print (l : line) : M unit :=
  fun w =>
    (Ret tt,
     {| CommitDiffCache := CommitDiffCache w;
        trace := trace w;
        written := written w ++ [l] |}).

(** [die(msg, arg)]: write to standard error and [os.Exit(1)]. *)
Definition die {A} (msg arg : string) : M A :=
  print (ErrDie msg arg) ;;; exit 1.

(** A call whose [error] the caller inspects instead of returning it:
    [v, err := f()] with [v] nil when [err] is not. *)
Definition call {A} (m : M (option A)) : M (option A * option string) :=
  fun w =>
    match m w with
    | (Ret a, w') => (Ret (a, None), w')
    | (Error e, w') => (Ret (None, Some e), w')
    | (Panicked p, w') => (Panicked p, w')
    | (Exited c, w') => (Exited c, w')
    end.

Definition Qgtb (a b : Q) : bool := negb (Qle_bool a b).

(* ===================================================================== *)
(** ** The program *)
(* ===================================================================== *)

Section Program.

(** The repository, as the [git] executable shows it. *)
Variable git : list string -> cmd_result.

(** [beda.NewStringDiff(s1, s2).JaroWinklerDistance(p)]. *)
Variable JaroWinklerDistance : string -> string -> Q -> Q.

(** [exec.Command(args[0], args[1:]...).Output()] *)
Definition Output (args : list string) : M string :=
  fun w =>
    let w' := {| CommitDiffCache := CommitDiffCache w;
                 trace := trace w ++ [args];
                 written := written w |} in
    match git args with
    | Stdout out => (Ret out, w')
    | Failed err => (Error err, w')
    end.

Definition runCommandTrimmedOutput (args : list string) : M string :=
  match args with
  | [] => fail "no command given"
  | _ :: _ =>
      out <- Output args ;;
      ret (TrimSpace out)
  end.

Definition runCommandSplitLines (args : list string) : M (list string) :=
  out <- runCommandTrimmedOutput args ;;
  ret (Split out newline).

Definition branchPrefix : string := "refs/heads/".

Definition getBranches : M (list string) :=
  lines <- runCommandSplitLines
             ["git"; "for-each-ref"; "--format=%(refname)"; branchPrefix] ;;
  ret (filter (fun branch => branch ≠ "")
         (map (fun l => TrimPrefix (TrimSpace l) branchPrefix) lines)).

Definition getGitRevParse (s : string) : M string :=
  runCommandTrimmedOutput ["git"; "rev-parse"; s].

Definition getGitMergeBase (a b : string) : M string :=
  runCommandTrimmedOutput ["git"; "merge-base"; a; b].

Definition getCommitSubject (commit : string) : M string :=
  runCommandTrimmedOutput
    ["git"; "--no-pager"; "show"; "--format=format:%s"; "-s"; commit].

Definition getCurrentBranch : M string :=
  s <- runCommandTrimmedOutput ["git"; "symbolic-ref"; "HEAD"] ;;
  ret (TrimPrefix s "refs/heads/").

Definition getCommitDiffOnly (commit : string) : M string :=
  contents <- runCommandTrimmedOutput ["git"; "--no-pager"; "show"; commit] ;;
  match SplitN2 contents (nl +:+ "diff --git") with
  | [_; rest] => ret ("diff --git" +:+ rest)
  | _ => ret ""
  end.

(** [if CommitDiffCache == nil { CommitDiffCache = map[...]{} }] *)
Definition theCache : M (gmap string CommitDiff) :=
  fun w =>
    match CommitDiffCache w with
    | Some m => (Ret m, w)
    | None =>
        (Ret ∅, {| CommitDiffCache := Some ∅;
                   trace := trace w;
                   written := written w |})
    end.

(** [CommitDiffCache[commit] = &commitDiff] *)
Definition store (commit : string) (cd : CommitDiff) : M unit :=
  fun w =>
    (Ret tt,
     {| CommitDiffCache := Some (<[commit := cd]> (default ∅ (CommitDiffCache w)));
        trace := trace w;
        written := written w |}).

Definition getCommitDiff (commit : string) : M CommitDiff :=
  cache <- theCache ;;
  match cache !! commit with
  | Some commitDiff => ret commitDiff
  | None =>
      gitDiff <- getCommitDiffOnly commit ;;
      let gitDiff := removeGitShaFromGitDiff gitDiff in
      subject <- getCommitSubject commit ;;
      let commitDiff :=
        {| Sha := commit; Subject := subject; Diff := gitDiff |} in
      store commit commitDiff ;;;
      ret commitDiff
  end.

(** Does not return the start commit, but does include the end commit. *)
Definition getCommits (start end_ : string) : M (list string) :=
  lines <- runCommandSplitLines
             ["git"; "log"; "--format=format:%H"; start +:+ ".." +:+ end_] ;;
  ret (filter (fun commit => commit ≠ "") (map TrimSpace lines)).

Definition getGitDiff (start end_ : string) : M string :=
  runCommandTrimmedOutput
    ["git"; "--no-pager"; "diff"; start +:+ ".." +:+ end_].

(** The three variables the loop over the trunk commits updates. *)
Record highest : Type := mkHighest {
  highestSubjectScore : Q;
  highestDiff : option CommitDiff;
  highestCombinedDiff : string
}.

(** [for _, commit := range commits { ... }] of [findMerged]. *)
Fixpoint scanTrunk (branchDiff : CommitDiff) (combinedDiff : string)
    (commits : list string) (h : highest) : M highest :=
  match commits with
  | [] => ret h
  | commit :: commits' =>
      commitDiff <- getCommitDiff commit ;;
      let subjectScore :=
        JaroWinklerDistance (Subject branchDiff) (Subject commitDiff) (1 # 10) in
      scanTrunk branchDiff combinedDiff commits'
        (if Qgtb subjectScore (highestSubjectScore h)
         then {| highestSubjectScore := subjectScore;
                 highestDiff := Some commitDiff;
                 highestCombinedDiff := combinedDiff |}
         else h)
  end.

Definition findMerged (currentBranch branch : string)
    : M (option PotentialMerge) :=
  base <- getGitMergeBase currentBranch branch ;;
  branchSha <- getGitRevParse branch ;;
  if decide (base = branchSha) then
    ret (Some {| Branch := branch;
                 MergedSha := base;
                 Merged := true;
                 SubjectScore := 1;
                 DiffScore := 1;
                 DiffSize := 0;
                 NumCommits := 0;
                 DiffCmd := "" |})
  else
    branchCommits <- getCommits base branch ;;
    match branchCommits with
    | [] => panic "branchCommits is empty, but if base == branchSha check didnt catch this"
    | commit0 :: _ =>
        branchDiff <- getCommitDiff commit0 ;;
        combinedDiff <- (if (1 <? length branchCommits)%nat
                         then getGitDiff base branch
                         else ret "") ;;
        commits <- getCommits base currentBranch ;;
        h <- scanTrunk branchDiff combinedDiff commits
               {| highestSubjectScore := 0;
                  highestDiff := None;
                  highestCombinedDiff := "" |} ;;
        match highestDiff h with
        | None => ret None
        | Some best =>
            if decide (highestCombinedDiff h = "") then
              let diffScore :=
                JaroWinklerDistance (Diff branchDiff) (Diff best) (1 # 10) in
              if decide (length branchCommits = 1%nat) then
                ret (Some {| Branch := branch;
                             MergedSha := Sha branchDiff;
                             Merged := false;
                             SubjectScore := highestSubjectScore h;
                             DiffScore := diffScore;
                             DiffSize := len (Diff branchDiff);
                             NumCommits := 1;
                             DiffCmd := "meld <(git show " +:+ branch
                                        +:+ ") <(git show " +:+ Sha best +:+ ")" |})
              else panic "expected single commit"
            else
              combinedDiff <- getGitDiff (Sha best +:+ "^") (Sha best) ;;
              let diffScore :=
                JaroWinklerDistance combinedDiff (highestCombinedDiff h) (1 # 10) in
              ret (Some {| Branch := branch;
                           MergedSha := Sha branchDiff;
                           Merged := false;
                           SubjectScore := highestSubjectScore h;
                           DiffScore := diffScore;
                           DiffSize := len combinedDiff;
                           NumCommits := Z.of_nat (length branchCommits);
                           DiffCmd := "meld <(git --no-pager diff " +:+ base +:+ ".."
                                      +:+ branch +:+ ") <(git --no-pager diff "
                                      +:+ (Sha best +:+ "^") +:+ ".." +:+ Sha best
                                      +:+ ")" |})
        end
    end.

(** [deleteBranch]: [exec.Command("git", "branch", "-D", name).Run()]. *)
Definition deleteBranch (branchName : string) : M unit :=
  print (OutDeleting branchName) ;;;
  _ <- Output ["git"; "branch"; "-D"; branchName] ;;
  ret tt.

(** [if err := deleteBranch(branch); err != nil { die(...) }] *)
Definition deleteOrDie (branch : string) : M unit :=
  r <- call (deleteBranch branch ;;; ret (Some tt)) ;;
  match snd r with
  | Some err => die ("failed to delete branch " +:+ branch) err
  | None => ret tt
  end.

(** What [main] does with the verdict of one branch: the body of its
    loop after the [potentialMerged == nil] test. *)
Definition report (progOpts : opts) (branch : string)
    (potentialMerged : PotentialMerge) : M unit :=
  if Merged potentialMerged then
    print (OutCleanlyMerged branch (MergedSha potentialMerged)) ;;;
    deleteOrDie branch ;;;
    print OutBlank
  else if Qgtb (SubjectScore potentialMerged) (MinSubjectScore progOpts)
          && Qgtb (DiffScore potentialMerged) (MinDiffScore progOpts) then
    let perfectDiffMatch :=
      Qeq_bool (DiffScore potentialMerged) 1
      && (10 <? DiffSize potentialMerged)%Z in
    if perfectDiffMatch then
      print (OutMerged branch (MergedSha potentialMerged)
               (SubjectScore potentialMerged) (DiffScore potentialMerged)) ;;;
      deleteOrDie branch ;;;
      print OutBlank
    else
      print (OutPotentiallyMerged branch (MergedSha potentialMerged)
               (SubjectScore potentialMerged) (DiffScore potentialMerged)) ;;;
      (if (1 <? NumCommits potentialMerged)%Z
       then print (OutWarning branch (NumCommits potentialMerged))
       else ret tt) ;;;
      print (OutText (DiffCmd potentialMerged)) ;;;
      print (OutDeleteHint branch) ;;;
      print OutBlank
  else ret tt.

(** The body of the loop of [main]. *)
Definition visit (progOpts : opts) (currentBranch branch : string) : M unit :=
  if decide (branch = currentBranch) then ret tt
  else
    r <- call (findMerged currentBranch branch) ;;
    (match snd r with
     | Some err => print (ErrIgnoring branch err)
     | None => ret tt
     end) ;;;
    match fst r with
    | None => ret tt
    | Some potentialMerged => report progOpts branch potentialMerged
    end.

Fixpoint visitAll (progOpts : opts) (currentBranch : string)
    (branches : list string) : M unit :=
  match branches with
  | [] => ret tt
  | branch :: branches' =>
      visit progOpts currentBranch branch ;;;
      visitAll progOpts currentBranch branches'
  end.

(** [main], from the parsed options on. *)
Definition main (progOpts : opts) : M unit :=
  rb <- call (bs <- getBranches ;; ret (Some bs)) ;;
  match rb with
  | (Some branches, _) =>
      rc <- call (c <- getCurrentBranch ;; ret (Some c)) ;;
      match rc with
      | (Some currentBranch, _) =>
          if bool_decide (currentBranch = "main")
             || bool_decide (currentBranch = "master")
             || bool_decide (currentBranch = "trunk")
          then visitAll progOpts currentBranch branches
          else die "current branch is %s; expected main, master, or trunk" currentBranch
      | (None, err) => die "failed to get current branch: %v" (default "" err)
      end
  | (None, err) => die "failed to get branches: %v" (default "" err)
  end.

End Program.

(* ===================================================================== *)
(** ** A similarity function for the worked examples *)
(* ===================================================================== *)

Module Beda.

(** Look for an unused byte equal to [c] at an index of [s2] in
    [[lo, hi)]; mark it used. *)
Fixpoint claim (c : ascii) (lo hi j : nat) (s2 : list ascii)
    (used : list bool) : option (list bool) :=
  match s2, used with
  | d :: s2', u :: used' =>
      if (lo <=? j)%nat && (j <? hi)%nat && negb u && Ascii.eqb c d
      then Some (true :: used')
      else option_map (cons u) (claim c lo hi (S j) s2' used')
  | _, _ => None
  end.

(** The bytes of [s1] that find a partner in [s2] within the window,
    in order, and the marks left on [s2]. *)
Fixpoint matching (i window : nat) (s1 s2 : list ascii) (used : list bool)
    : list ascii * list bool :=
  match s1 with
  | [] => ([], used)
  | c :: s1' =>
      match claim c (i - window) (i + window + 1) 0 s2 used with
      | Some used' =>
          let (m, u) := matching (S i) window s1' s2 used' in (c :: m, u)
      | None => matching (S i) window s1' s2 used
      end
  end.

Fixpoint marked (s2 : list ascii) (used : list bool) : list ascii :=
  match s2, used with
  | d :: s2', u :: used' =>
      if u then d :: marked s2' used' else marked s2' used'
  | _, _ => []
  end.

Fixpoint mismatches (a b : list ascii) : nat :=
  match a, b with
  | x :: a', y :: b' =>
      (if Ascii.eqb x y then 0 else 1) + mismatches a' b'
  | _, _ => 0
  end.

Fixpoint commonPrefix (n : nat) (a b : list ascii) : nat :=
  match n, a, b with
  | S n', x :: a', y :: b' =>
      if Ascii.eqb x y then S (commonPrefix n' a' b') else 0
  | _, _, _ => 0
  end.

Definition ofNat (n : nat) : Q := inject_Z (Z.of_nat n).

Definition JaroDistance (S1 S2 : string) : Q :=
  let s1 := String.list_ascii_of_string S1 in
  let s2 := String.list_ascii_of_string S2 in
  match s1, s2 with
  | [], [] => 1
  | [], _ | _, [] => 0
  | _, _ =>
      let window := (Nat.max (length s1) (length s2) / 2 - 1)%nat in
      let (m1, used) := matching 0 window s1 s2 (map (fun _ => false) s2) in
      let m := length m1 in
      match m with
      | O => 0
      | S _ =>
          let t := (ofNat (mismatches m1 (marked s2 used)) / 2)%Q in
          ((ofNat m / ofNat (length s1) + ofNat m / ofNat (length s2)
            + (ofNat m - t) / ofNat m) / 3)%Q
      end
  end.

(** Modelled from the spec: the [beda] package is a dependency whose
    source is not part of the repository; the spec describes its
    [JaroWinklerDistance] as the Jaro-Winkler similarity, a
    prefix-weighted score in [0,1].  This is the textbook definition
    (matching window, half the out-of-order matches as transpositions,
    a common prefix of at most four bytes weighted by [p]).  It only
    instantiates the parameter of the detector in worked examples. *)
Definition JaroWinklerDistance (S1 S2 : string) (p : Q) : Q :=
  let jaro := JaroDistance S1 S2 in
  let l := commonPrefix 4 (String.list_ascii_of_string S1)
             (String.list_ascii_of_string S2) in
  Qred (jaro + ofNat l * p * (1 - jaro))%Q.

End Beda.


(* ===================================================================== *)
(** ** The detector as a function of the repository

    [findMerged] reads the repository through child processes and
    through the cache.  The definitions of this section are the same
    computations with the state erased: a query is a function of the
    repository alone.  [findMerged_refines] proves that the program
    computes them. *)
(* ===================================================================== *)

Definition bindO {A B} (o : outcome A) (k : A -> outcome B) : outcome B :=
  match o with
  | Ret a => k a
  | Error e => Error e
  | Panicked p => Panicked p
  | Exited c => Exited c
  end.

Notation "x <-- o ;; k" := (bindO o (fun x => k))
  (at level 100, o at level 90, right associativity).

Fixpoint mapO {A B} (f : A -> outcome B) (l : list A) : outcome (list B) :=
  match l with
  | [] => Ret []
  | x :: l' => y <-- f x ;; ys <-- mapO f l' ;; Ret (y :: ys)
  end.

Definition showCmd (sha : string) : list string :=
  ["git"; "--no-pager"; "show"; sha].

Definition subjectCmd (sha : string) : list string :=
  ["git"; "--no-pager"; "show"; "--format=format:%s"; "-s"; sha].

(** How often a command line was started. *)
Definition runs (cmd : list string) (t : list (list string)) : nat :=
  length (filter (fun args => args = cmd) t).

(** The cache entry of a commit ([None] also while the map is nil). *)
Definition cached (w : world) (sha : string) : option CommitDiff :=
  default ∅ (CommitDiffCache w) !! sha.

(** The state after one more child process. *)
Definition started (w : world) (args : list string) : world :=
  {| CommitDiffCache := CommitDiffCache w;
     trace := trace w ++ [args];
     written := written w |}.

(** The part of [git show] from its first [diff --git] line on. *)
Definition diffOnly (contents : string) : string :=
  match SplitN2 contents (nl +:+ "diff --git") with
  | [_; rest] => "diff --git" +:+ rest
  | _ => ""
  end.

Definition linesOf (out : string) : list string :=
  filter (fun commit => commit ≠ "") (map TrimSpace (Split out newline)).

Section Repository.

Variable git : list string -> cmd_result.
Variable JaroWinklerDistance : string -> string -> Q -> Q.

(** The trimmed output of a command. *)
Definition query (args : list string) : outcome string :=
  match git args with
  | Stdout out => Ret (TrimSpace out)
  | Failed err => Error err
  end.

Definition mergeBase (a b : string) : outcome string :=
  query ["git"; "merge-base"; a; b].

Definition revParse (s : string) : outcome string :=
  query ["git"; "rev-parse"; s].

(** The commits reachable from [end_] but not from [start], in the
    order of [git log]. *)
Definition commitsBetween (start end_ : string) : outcome (list string) :=
  out <-- query ["git"; "log"; "--format=format:%H"; start +:+ ".." +:+ end_] ;;
  Ret (linesOf out).

Definition combinedDiff (start end_ : string) : outcome string :=
  query ["git"; "--no-pager"; "diff"; start +:+ ".." +:+ end_].

(** The fingerprint of a commit: what [getCommitDiff] computes on a
    cache miss. *)
Definition fingerprintOf (sha : string) : outcome CommitDiff :=
  contents <-- query (showCmd sha) ;;
  subject <-- query (subjectCmd sha) ;;
  Ret {| Sha := sha;
         Subject := subject;
         Diff := removeGitShaFromGitDiff (diffOnly contents) |}.

(** The loop of [findMerged] over fingerprints already computed. *)
Fixpoint bestMatch (subject combined : string) (trunk : list CommitDiff)
    (h : highest) : highest :=
  match trunk with
  | [] => h
  | commitDiff :: trunk' =>
      let subjectScore :=
        JaroWinklerDistance subject (Subject commitDiff) (1 # 10) in
      bestMatch subject combined trunk'
        (if Qgtb subjectScore (highestSubjectScore h)
         then {| highestSubjectScore := subjectScore;
                 highestDiff := Some commitDiff;
                 highestCombinedDiff := combined |}
         else h)
  end.

Definition nothingYet : highest :=
  {| highestSubjectScore := 0;
     highestDiff := None;
     highestCombinedDiff := "" |}.

(** The end of [findMerged]: the verdict for the best match [h]. *)
Definition verdict (branch base : string) (branchCommits : list string)
    (branchDiff : CommitDiff) (h : highest) : outcome (option PotentialMerge) :=
  match highestDiff h with
  | None => Ret None
  | Some best =>
      if decide (highestCombinedDiff h = "") then
        if decide (length branchCommits = 1%nat) then
          Ret (Some {| Branch := branch;
                       MergedSha := Sha branchDiff;
                       Merged := false;
                       SubjectScore := highestSubjectScore h;
                       DiffScore :=
                         JaroWinklerDistance (Diff branchDiff) (Diff best) (1 # 10);
                       DiffSize := len (Diff branchDiff);
                       NumCommits := 1;
                       DiffCmd := "meld <(git show " +:+ branch
                                  +:+ ") <(git show " +:+ Sha best +:+ ")" |})
        else Panicked "expected single commit"
      else
        trunkDiff <-- combinedDiff (Sha best +:+ "^") (Sha best) ;;
        Ret (Some {| Branch := branch;
                     MergedSha := Sha branchDiff;
                     Merged := false;
                     SubjectScore := highestSubjectScore h;
                     DiffScore :=
                       JaroWinklerDistance trunkDiff (highestCombinedDiff h) (1 # 10);
                     DiffSize := len trunkDiff;
                     NumCommits := Z.of_nat (length branchCommits);
                     DiffCmd := "meld <(git --no-pager diff " +:+ base +:+ ".."
                                +:+ branch +:+ ") <(git --no-pager diff "
                                +:+ (Sha best +:+ "^") +:+ ".." +:+ Sha best
                                +:+ ")" |})
  end.

(** [findMerged] without the cache and the trace. *)
Definition detectMerge (currentBranch branch : string)
    : outcome (option PotentialMerge) :=
  base <-- mergeBase currentBranch branch ;;
  branchSha <-- revParse branch ;;
  if decide (base = branchSha) then
    Ret (Some {| Branch := branch; MergedSha := base; Merged := true;
                 SubjectScore := 1; DiffScore := 1; DiffSize := 0;
                 NumCommits := 0; DiffCmd := "" |})
  else
    branchCommits <-- commitsBetween base branch ;;
    match branchCommits with
    | [] => Panicked "branchCommits is empty, but if base == branchSha check didnt catch this"
    | commit0 :: _ =>
        branchDiff <-- fingerprintOf commit0 ;;
        combined <-- (if (1 <? length branchCommits)%nat
                      then combinedDiff base branch else Ret "") ;;
        commits <-- commitsBetween base currentBranch ;;
        trunk <-- mapO fingerprintOf commits ;;
        verdict branch base branchCommits branchDiff
          (bestMatch (Subject branchDiff) combined trunk nothingYet)
    end.

(** The cache holds fingerprints of the repository, each computed by
    exactly one [git show] and one subject query; a commit that can be
    fingerprinted and is not cached has not been queried. *)
Definition cache_ok (w : world) : Prop :=
  forall sha,
    match cached w sha with
    | Some cd =>
        fingerprintOf sha = Ret cd
        /\ runs (showCmd sha) (trace w) = 1%nat
        /\ runs (subjectCmd sha) (trace w) = 1%nat
    | None =>
        (exists cd, fingerprintOf sha = Ret cd) ->
        runs (showCmd sha) (trace w) = 0%nat
        /\ runs (subjectCmd sha) (trace w) = 0%nat
    end.

(** Cache entries are never removed or replaced. *)
Definition cache_le (w w' : world) : Prop :=
  forall sha cd, cached w sha = Some cd -> cached w' sha = Some cd.

(** One call of the program on the state of the run. *)
Inductive step : world -> world -> Prop :=
  | step_getCommitDiff sha w :
      step w (snd (getCommitDiff git sha w))
  | step_findMerged currentBranch branch w :
      step w (snd (findMerged git JaroWinklerDistance currentBranch branch w))
  | step_visit progOpts currentBranch branch w :
      step w (snd (visit git JaroWinklerDistance progOpts currentBranch branch w))
  | step_main progOpts w :
      step w (snd (main git JaroWinklerDistance progOpts w)).

(** The states of a run: those reached from the initial state by any
    number of calls. *)
Inductive reached : world -> world -> Prop :=
  | reached_refl w : reached w w
  | reached_step w w' w'' : reached w w' -> step w' w'' -> reached w w''.

End Repository.

(* ===================================================================== *)
(** ** Repositories for the worked examples *)
(* ===================================================================== *)

Module Scenario.

(** A repository given by the output of the commands that succeed;
    every other command fails. *)
Fixpoint repository (table : list (list string * string)) (args : list string)
    : cmd_result :=
  match table with
  | [] => Failed "exit status 128"
  | (cmd, out) :: table' =>
      if decide (cmd = args) then Stdout out else repository table' args
  end.

Definition text (lines : list string) : string := Join lines nl.

Definition jw : string -> string -> Q -> Q := Beda.JaroWinklerDistance.

Definition defaults : opts :=
  {| Verbose := false; Version := false; Perfect := false;
     MinSubjectScore := 9 # 10; MinDiffScore := 9 # 10 |}.

(** [git show] of a commit that changes [login.go]. *)
Definition loginCommit (sha index hunk added : string) : string :=
  text ["commit " +:+ sha;
        "Author: Dev <dev@example.com>";
        "Date:   Mon Jan 1 00:00:00 2024 +0000";
        "";
        "    fix login bug";
        "";
        "diff --git a/login.go b/login.go";
        index;
        "--- a/login.go";
        "+++ b/login.go";
        hunk;
        " check()";
        added].

Definition plainCommit (sha subject : string) : string :=
  text ["commit " +:+ sha;
        "Author: Dev <dev@example.com>";
        "";
        "    " +:+ subject;
        "";
        "diff --git a/README b/README";
        "index 0a0a0a0a..0b0b0b0b 100644";
        "--- a/README";
        "+++ b/README";
        "@@ -1 +1 @@";
        "-old";
        "+" +:+ subject].

(** Trunk [main] has [B], [C] and [C2] since [A]; branch [feature] was
    created at [A] and has one commit [D]; [C2] is [D] rebased, and
    [git show C2] prints [trunkShow]. *)
Definition rebase (trunkShow : string) : list string -> cmd_result :=
  repository
    [(["git"; "for-each-ref"; "--format=%(refname)"; "refs/heads/"],
        text ["refs/heads/feature"; "refs/heads/main"; ""]);
     (["git"; "symbolic-ref"; "HEAD"], "refs/heads/main" +:+ nl);
     (["git"; "merge-base"; "main"; "feature"], "A" +:+ nl);
     (["git"; "rev-parse"; "feature"], "D" +:+ nl);
     (["git"; "log"; "--format=format:%H"; "A..feature"], "D");
     (["git"; "log"; "--format=format:%H"; "A..main"], text ["C2"; "C"; "B"]);
     (showCmd "D",
        loginCommit "D" "index 650fc525..aa3fa82c 100644"
          "@@ -6,6 +6,7 @@ func login() {" "+audit()");
     (subjectCmd "D", "fix login bug");
     (showCmd "C2", trunkShow);
     (subjectCmd "C2", "fix login bug");
     (showCmd "C", plainCommit "C" "update readme");
     (subjectCmd "C", "update readme");
     (showCmd "B", plainCommit "B" "bump version");
     (subjectCmd "B", "bump version");
     (["git"; "branch"; "-D"; "feature"], "Deleted branch feature")].

(** [C2] carries the change of [D] at other line numbers. *)
Definition rebased : list string -> cmd_result :=
  rebase (loginCommit "C2" "index 1b2c3d4e..5f6a7b8c 100644"
            "@@ -9,6 +9,7 @@ func login() {" "+audit()").

(** [C2] carries a change that differs from [D] in its last line. *)
Definition reworked : list string -> cmd_result :=
  rebase (loginCommit "C2" "index 1b2c3d4e..5f6a7b8c 100644"
            "@@ -9,6 +9,7 @@ func login() {" "+audit(user)").

Definition parserDiff (index hunk : string) : string :=
  text ["diff --git a/parser.go b/parser.go";
        index;
        "--- a/parser.go";
        "+++ b/parser.go";
        hunk;
        " package parser";
        "+func Parse() {}";
        "+func Lex() {}";
        "+func Emit() {}"].

(** Branch [topic] has three commits [F1], [F2], [F3] (oldest first)
    since [A]; trunk has the single commit [M] since [A], with subject
    [trunkSubject] and diff [trunkDiff]. *)
Definition squash (trunkSubject trunkDiff : string) : list string -> cmd_result :=
  repository
    [(["git"; "merge-base"; "main"; "topic"], "A" +:+ nl);
     (["git"; "rev-parse"; "topic"], "F3" +:+ nl);
     (["git"; "log"; "--format=format:%H"; "A..topic"], text ["F3"; "F2"; "F1"]);
     (["git"; "log"; "--format=format:%H"; "A..main"], "M");
     (showCmd "F3", plainCommit "F3" "add emitter");
     (subjectCmd "F3", "add emitter");
     (showCmd "F1", plainCommit "F1" "start the parser");
     (subjectCmd "F1", "start the parser");
     (showCmd "M", plainCommit "M" trunkSubject);
     (subjectCmd "M", trunkSubject);
     (["git"; "--no-pager"; "diff"; "A..topic"],
        parserDiff "index 650fc525..aa3fa82c 100644" "@@ -1 +1,4 @@");
     (["git"; "--no-pager"; "diff"; "M^..M"], trunkDiff)].

(** [M] is the squash of [topic], applied to the same file contents. *)
Definition squashed : list string -> cmd_result :=
  squash "add parser (#12)"
    (parserDiff "index 650fc525..aa3fa82c 100644" "@@ -1 +1,4 @@").

(** The same squash under a subject that shares no byte with the
    subject of [F3]. *)
Definition squashedRenamed : list string -> cmd_result :=
  squash "PARSER"
    (parserDiff "index 650fc525..aa3fa82c 100644" "@@ -1 +1,4 @@").

(** [M] is the squash of [topic], applied after the file had changed
    elsewhere: other blob hashes, other line numbers, same lines. *)
Definition squashedLater : list string -> cmd_result :=
  squash "add parser (#12)"
    (parserDiff "index 7c7c7c7c..8d8d8d8d 100644" "@@ -3 +3,4 @@").

(** Branch [wip] has two commits since [A], the second reverting the
    first: its combined diff is empty. *)
Definition reverted : list string -> cmd_result :=
  repository
    [(["git"; "merge-base"; "main"; "wip"], "A");
     (["git"; "rev-parse"; "wip"], "R2");
     (["git"; "log"; "--format=format:%H"; "A..wip"], text ["R2"; "R1"]);
     (["git"; "log"; "--format=format:%H"; "A..main"], "B");
     (showCmd "R2", plainCommit "R2" "Revert try");
     (subjectCmd "R2", "Revert try");
     (showCmd "B", plainCommit "B" "Release");
     (subjectCmd "B", "Release");
     (["git"; "--no-pager"; "diff"; "A..wip"], "")].

(** Branch [exp] has one commit, trunk has one commit, and their
    subjects share no byte. *)
Definition unrelated : list string -> cmd_result :=
  repository
    [(["git"; "merge-base"; "main"; "exp"], "A");
     (["git"; "rev-parse"; "exp"], "E");
     (["git"; "log"; "--format=format:%H"; "A..exp"], "E");
     (["git"; "log"; "--format=format:%H"; "A..main"], "T");
     (showCmd "E", plainCommit "E" "abc");
     (subjectCmd "E", "abc");
     (showCmd "T", plainCommit "T" "xyz");
     (subjectCmd "T", "xyz")].

(** Branch [done] points at a commit of trunk. *)
Definition merged : list string -> cmd_result :=
  repository
    [(["git"; "merge-base"; "main"; "done"], "B" +:+ nl);
     (["git"; "rev-parse"; "done"], "B" +:+ nl)].

End Scenario.

(* ===================================================================== *)
(** ** The diff normalizer: line structure *)
(* ===================================================================== *)

(** A text without a line feed. *)
Fixpoint oneline (s : string) : bool :=
  match s with
  | EmptyString => true
  | String c s' => dot c && oneline s'
  end.

Lemma append_cons c s t : String c s +:+ t = String c (s +:+ t).
Proof. reflexivity. Qed.

Lemma append_empty_l s : "" +:+ s = s.
Proof. reflexivity. Qed.

Lemma append_empty_r s : s +:+ "" = s.
Proof. induction s as [|c s IH]; [reflexivity|]. rewrite append_cons, IH. reflexivity. Qed.

Lemma append_assoc s t u : (s +:+ t) +:+ u = s +:+ (t +:+ u).
Proof.
  induction s as [|c s IH]; [reflexivity|].
  rewrite !append_cons, IH. reflexivity.
Qed.

Lemma oneline_append s t : oneline (s +:+ t) = oneline s && oneline t.
Proof.
  induction s as [|c s IH]; [reflexivity|].
  rewrite append_cons. simpl. rewrite IH, andb_assoc. reflexivity.
Qed.

Lemma dot_newline : dot newline = false.
Proof. reflexivity. Qed.

Lemma dot_eqb c : dot c = true -> Ascii.eqb c newline = false.
Proof. unfold dot. destruct (Ascii.eqb c newline); [discriminate|reflexivity]. Qed.

Lemma Split_nonempty s sep : Split s sep ≠ [].
Proof.
  destruct s as [|c s]; simpl; [discriminate|].
  destruct (Ascii.eqb c sep); [discriminate|].
  destruct (Split s sep); discriminate.
Qed.

Lemma Split_oneline s : oneline s = true -> Split s newline = [s].
Proof.
  induction s as [|c s IH]; simpl; [reflexivity|].
  intros [Hc Hs]%andb_prop. rewrite (dot_eqb _ Hc), (IH Hs). reflexivity.
Qed.

Lemma Split_lines_oneline s : Forall (fun l => oneline l = true) (Split s newline).
Proof.
  induction s as [|c s IH]; simpl.
  - repeat constructor.
  - destruct (Ascii.eqb c newline) eqn:E.
    + constructor; [reflexivity|exact IH].
    + destruct (Split s newline) as [|x xs]; [repeat constructor|].
      * simpl. unfold dot. rewrite E. reflexivity.
      * inversion IH; subst. constructor; [|assumption].
        simpl. unfold dot. rewrite E. simpl. assumption.
Qed.

Lemma Split_append_line a b :
  oneline a = true ->
  Split (a +:+ nl +:+ b) newline = a :: Split b newline.
Proof.
  induction a as [|c a IH]; intros H.
  - reflexivity.
  - apply andb_prop in H as [Hc Ha].
    rewrite append_cons. simpl. rewrite (dot_eqb _ Hc), (IH Ha). reflexivity.
Qed.

Lemma Split_Join ls :
  ls ≠ [] -> Forall (fun l => oneline l = true) ls ->
  Split (Join ls nl) newline = ls.
Proof.
  induction ls as [|x ls IH]; [congruence|].
  intros _ H. inversion H as [|? ? Hx Hls]; subst.
  destruct ls as [|y ls].
  - simpl. apply Split_oneline, Hx.
  - change (Join (x :: y :: ls) nl) with (x +:+ nl +:+ Join (y :: ls) nl).
    rewrite Split_append_line by exact Hx.
    rewrite IH; [reflexivity|discriminate|exact Hls].
Qed.

Lemma Split_append_nl s : Split (s +:+ nl) newline = Split s newline ++ [""].
Proof.
  induction s as [|c s IH]; [reflexivity|].
  rewrite append_cons. simpl. rewrite IH.
  destruct (Ascii.eqb c newline); [reflexivity|].
  pose proof (Split_nonempty s newline) as Hne.
  destruct (Split s newline) as [|x xs]; [congruence|reflexivity].
Qed.

Lemma Join_snoc ls x sep :
  ls ≠ [] -> Join (ls ++ [x]) sep = Join ls sep +:+ sep +:+ x.
Proof.
  induction ls as [|y ls IH]; [congruence|]. intros _.
  destruct ls as [|z ls]; [reflexivity|].
  change (Join ((y :: z :: ls) ++ [x]) sep)
    with (y +:+ sep +:+ Join ((z :: ls) ++ [x]) sep).
  rewrite IH by discriminate.
  change (Join (y :: z :: ls) sep) with (y +:+ sep +:+ Join (z :: ls) sep).
  rewrite !append_assoc. reflexivity.
Qed.

(* ===================================================================== *)
(** ** The diff normalizer: what a match leaves *)
(* ===================================================================== *)

Lemma strip_prefix_spec p s s' : strip_prefix p s = Some s' -> s = p +:+ s'.
Proof.
  revert s; induction p as [|a p IH]; intros [|b s] H; simpl in H;
    try discriminate; try (injection H as <-; reflexivity).
  destruct (Ascii.eqb a b) eqn:E; [|discriminate].
  apply Ascii.eqb_eq in E as ->. rewrite append_cons, <- (IH _ H). reflexivity.
Qed.

Lemma rep_spec n cls s s' :
  rep n cls s = Some s' -> exists t, s = t +:+ s'.
Proof.
  revert s; induction n as [|n IH]; intros s H; simpl in H.
  - injection H as <-. exists "". reflexivity.
  - destruct s as [|c s]; [discriminate|].
    destruct (cls c); [|discriminate].
    destruct (IH _ H) as [t ->]. exists (String c t). reflexivity.
Qed.

Definition oneline_opt (o : option string) : Prop :=
  forall x, o = Some x -> oneline x = true.

Lemma oneline_suffix t s : oneline (t +:+ s) = true -> oneline s = true.
Proof. rewrite oneline_append. intros [_ H]%andb_prop. exact H. Qed.

Lemma oneline_substring s : oneline s = true ->
  forall n m, oneline (String.substring n m s) = true.
Proof.
  induction s as [|c s IH]; intros H n m.
  - destruct n, m; reflexivity.
  - apply andb_prop in H as [Hc Hs].
    destruct n as [|n]; destruct m as [|m]; simpl; try reflexivity.
    + rewrite Hc. simpl. apply IH, Hs.
    + apply IH, Hs.
    + apply IH, Hs.
Qed.

Lemma star_spec {R} cls (k : string -> option R) s r :
  star cls k s = Some r -> exists t s', s = t +:+ s' /\ k s' = Some r.
Proof.
  induction s as [|c s IH]; simpl; intros H.
  - exists "", "". split; [reflexivity|exact H].
  - destruct (cls c).
    + destruct (star cls k s) as [r'|] eqn:E.
      * injection H as ->. destruct (IH eq_refl) as (t & s' & -> & Hk).
        exists (String c t), s'. split; [reflexivity|exact Hk].
      * exists "", (String c s). split; [reflexivity|exact H].
    + exists "", (String c s). split; [reflexivity|exact H].
Qed.

(** A match on a one-line text leaves a one-line rest and a one-line
    group. *)
Lemma run_oneline re : forall opened cap s cap' rest,
  oneline s = true -> oneline_opt opened -> oneline_opt cap ->
  run re opened cap s = Some (cap', rest) ->
  oneline rest = true /\ oneline_opt cap'.
Proof.
  induction re as [|it re IH]; intros opened cap s cap' rest Hs Ho Hc H.
  - simpl in H. injection H as <- <-. split; assumption.
  - destruct it; simpl in H.
    + destruct (strip_prefix s0 s) as [s'|] eqn:E; [|discriminate].
      apply strip_prefix_spec in E as ->.
      refine (IH _ _ _ _ _ _ Ho Hc H). eapply oneline_suffix, Hs.
    + destruct (rep n cls s) as [s'|] eqn:E; [|discriminate].
      apply rep_spec in E as [t ->].
      refine (IH _ _ _ _ _ _ Ho Hc H). eapply oneline_suffix, Hs.
    + apply star_spec in H as (t & s' & -> & Hk).
      refine (IH _ _ _ _ _ _ Ho Hc Hk). eapply oneline_suffix, Hs.
    + refine (IH _ _ _ _ _ Hs _ Hc H).
      intros x [= <-]. exact Hs.
    + refine (IH _ _ _ _ _ Hs Ho _ H).
      destruct opened as [o|]; [|exact Hc].
      intros x [= <-]. apply oneline_substring, Ho. reflexivity.
    + destruct s; [|discriminate]. exact (IH _ _ _ _ _ Hs Ho Hc H).
Qed.

(** A pattern that ends with [$] leaves nothing. *)
Lemma run_to_end re : forall opened cap s cap' rest,
  run (re ++ [Eot]) opened cap s = Some (cap', rest) -> rest = "".
Proof.
  induction re as [|it re IH]; intros opened cap s cap' rest H.
  - simpl in H. destruct s; [|discriminate]. injection H as _ <-. reflexivity.
  - destruct it; simpl in H.
    + destruct (strip_prefix s0 s); [|discriminate]. eapply IH, H.
    + destruct (rep n cls s); [|discriminate]. eapply IH, H.
    + apply star_spec in H as (t & s' & _ & Hk). eapply IH, Hk.
    + eapply IH, H.
    + eapply IH, H.
    + destruct s; [|discriminate]. eapply IH, H.
Qed.

Definition oneline_template (t : template) : Prop :=
  Forall (fun p => match p with Text s => oneline s = true | Group1 => True end) t.

Lemma expand_oneline t cap :
  oneline_template t -> oneline_opt cap -> oneline (expand t cap) = true.
Proof.
  intros Ht Hc. induction Ht as [|p t Hp _ IH]; [reflexivity|].
  destruct p; simpl; rewrite oneline_append, IH, andb_true_r.
  - exact Hp.
  - destruct cap as [c|]; [apply Hc; reflexivity|reflexivity].
Qed.

Lemma ReplaceAllString_oneline re src repl :
  oneline_template repl -> oneline src = true ->
  oneline (ReplaceAllString re src repl) = true.
Proof.
  intros Ht Hs. unfold ReplaceAllString.
  destruct (run re None None src) as [[cap rest]|] eqn:E; [|exact Hs].
  apply run_oneline in E as [Hr Hc]; try (exact Hs); try (intros ? [=]).
  rewrite oneline_append, Hr, andb_true_r. apply expand_oneline; assumption.
Qed.

Lemma normalizeLine_oneline l :
  oneline l = true -> oneline (normalizeLine l) = true.
Proof.
  intros H. unfold normalizeLine.
  repeat (apply ReplaceAllString_oneline;
          [repeat constructor|]).
  exact H.
Qed.

(** The four outcomes of the loop body on one line. *)
Inductive normalized : string -> string -> Prop :=
  | norm_index l mode :
      normalized l ("index zzzzzzzz..zzzzzzzz " +:+ mode)
  | norm_gone l :
      normalized l "index zzzzzzzz..00000000"
  | norm_hunk l rest :
      normalized l ("@@ ... @@" +:+ rest)
  | norm_same l :
      run indexRegxp None None l = None ->
      run indexRegxpNewFile None None l = None ->
      run indexRegxpDeleteFile None None l = None ->
      run changeLocation None None l = None ->
      normalized l l.

Lemma normalizeLine_cases l : normalized l (normalizeLine l).
Proof.
  unfold normalizeLine, ReplaceAllString at 4.
  destruct (run indexRegxp None None l) as [[cap rest]|] eqn:E1.
  { pose proof (run_to_end [Lit "index "; Rep 8 hex; Lit ".."; Rep 8 hex;
                            Lit " "; Open; Rep 6 digit; Close]
                  _ _ _ _ _ E1) as ->.
    replace (ReplaceAllString _ (ReplaceAllString _ (ReplaceAllString _ _ _) _) _)
      with ("index zzzzzzzz..zzzzzzzz " +:+ default "" cap);
      [apply norm_index|].
    vm_compute. rewrite !append_empty_r. reflexivity. }
  unfold ReplaceAllString at 3.
  destruct (run indexRegxpNewFile None None l) as [[cap rest]|] eqn:E2.
  { pose proof (run_to_end [Lit "index "; Rep 8 zero; Lit ".."; Star dot]
                  _ _ _ _ _ E2) as ->.
    vm_compute. apply norm_gone. }
  unfold ReplaceAllString at 2.
  destruct (run indexRegxpDeleteFile None None l) as [[cap rest]|] eqn:E3.
  { pose proof (run_to_end [Lit "index "; Rep 8 hex; Lit ".."; Star dot]
                  _ _ _ _ _ E3) as ->.
    vm_compute. apply norm_gone. }
  unfold ReplaceAllString.
  destruct (run changeLocation None None l) as [[cap rest]|] eqn:E4.
  { apply (norm_hunk l rest). }
  apply norm_same; assumption.
Qed.

Lemma normalizeLine_fixed l x : normalized l x -> normalizeLine x = x.
Proof.
  destruct 1 as [l mode|l|l rest|l H1 H2 H3 H4].
  - vm_compute. reflexivity.
  - vm_compute. reflexivity.
  - vm_compute. reflexivity.
  - unfold normalizeLine, ReplaceAllString. rewrite H1, H2, H3, H4. reflexivity.
Qed.

(** The loop body is idempotent. *)
Lemma normalizeLine_idempotent l :
  normalizeLine (normalizeLine l) = normalizeLine l.
Proof. exact (normalizeLine_fixed l _ (normalizeLine_cases l)). Qed.

Lemma normalized_lines d :
  let lines := map normalizeLine (Split d newline) in
  lines ≠ [] /\ Forall (fun l => oneline l = true) lines.
Proof.
  split.
  - pose proof (Split_nonempty d newline).
    destruct (Split d newline); [congruence|discriminate].
  - apply Forall_forall. intros x Hx.
    apply list_elem_of_In, in_map_iff in Hx as (l & <- & Hl).
    apply normalizeLine_oneline.
    pose proof (Split_lines_oneline d) as Hall.
    rewrite Forall_forall in Hall. apply Hall, list_elem_of_In, Hl.
Qed.

(** The lines of a normalized diff are the normalized lines of the
    input, followed by one empty line. *)
Lemma Split_removeGitShaFromGitDiff d :
  Split (removeGitShaFromGitDiff d) newline
  = map normalizeLine (Split d newline) ++ [""].
Proof.
  unfold removeGitShaFromGitDiff.
  destruct (normalized_lines d) as [Hne Hall].
  rewrite Split_append_nl, Split_Join by assumption. reflexivity.
Qed.

(** C6, as amended: normalizing a normalized diff changes no line of
    it; the second pass only appends one more line feed, so
    [normalize (normalize d) = normalize d ++ "\n"]. *)
Theorem removeGitShaFromGitDiff_twice d :
  removeGitShaFromGitDiff (removeGitShaFromGitDiff d)
  = removeGitShaFromGitDiff d +:+ nl.
Proof.
  unfold removeGitShaFromGitDiff at 1.
  rewrite Split_removeGitShaFromGitDiff, map_app, map_map.
  rewrite (map_ext _ normalizeLine) by (intros; apply normalizeLine_idempotent).
  destruct (normalized_lines d) as [Hne _].
  change (map normalizeLine [""]) with [""].
  rewrite Join_snoc by exact Hne.
  unfold removeGitShaFromGitDiff. rewrite append_empty_r. reflexivity.
Qed.

(** C6, as stated, fails: already on the empty diff the second pass
    yields a different text. *)
Lemma removeGitShaFromGitDiff_not_idempotent :
  removeGitShaFromGitDiff (removeGitShaFromGitDiff "")
  <> removeGitShaFromGitDiff "".
Proof. vm_compute. discriminate. Qed.

(** The new-file placeholder is never the result of the loop body. *)
Lemma normalizeLine_never_new_file l :
  normalizeLine l <> "index 00000000..zzzzzzzz".
Proof.
  intros H. pose proof (normalizeLine_cases l) as N. rewrite H in N.
  inversion N as [? mode E|? E|? rest E|? H1 H2 H3 H4 E];
    try (vm_compute in E; discriminate);
    try (vm_compute in H2; discriminate).
Qed.

(** C7: the code at a new-file index line and at a deleted-file index
    line.  Both lines normalize to the deleted-file placeholder
    [index zzzzzzzz..00000000]; the new-file placeholder
    [index 00000000..zzzzzzzz], written by the second replacement, is
    always overwritten by the third, whose pattern accepts any first
    hash. *)
Theorem new_file_line_normalized_as_deleted :
  removeGitShaFromGitDiff "index 00000000..eb2f469c"
  = "index zzzzzzzz..00000000" +:+ nl
  /\ removeGitShaFromGitDiff "index edfb5027..00000000"
     = "index zzzzzzzz..00000000" +:+ nl
  /\ ReplaceAllString indexRegxpNewFile "index 00000000..eb2f469c"
       [Text "index 00000000..zzzzzzzz"]
     = "index 00000000..zzzzzzzz"
  /\ ReplaceAllString indexRegxpDeleteFile "index 00000000..zzzzzzzz"
       [Text "index zzzzzzzz..00000000"]
     = "index zzzzzzzz..00000000"
  /\ forall l, normalizeLine l <> "index 00000000..zzzzzzzz".
Proof.
  repeat apply conj; try (vm_compute; reflexivity).
  apply normalizeLine_never_new_file.
Qed.

(* ===================================================================== *)
(** ** The cache and the trace: invariants of every call *)
(* ===================================================================== *)

Lemma runs_snoc cmd t args :
  runs cmd (t ++ [args]) = (runs cmd t + (if decide (args = cmd) then 1 else 0))%nat.
Proof.
  unfold runs. rewrite filter_app, length_app. f_equal.
  rewrite filter_cons, filter_nil. destruct (decide (args = cmd)); reflexivity.
Qed.

Lemma runs_snoc_ne cmd t args : args ≠ cmd -> runs cmd (t ++ [args]) = runs cmd t.
Proof.
  intros H. rewrite runs_snoc. destruct (decide (args = cmd)); [contradiction|lia].
Qed.

Lemma runs_snoc_eq cmd t : runs cmd (t ++ [cmd]) = S (runs cmd t).
Proof.
  rewrite runs_snoc. destruct (decide (cmd = cmd)); [lia|contradiction].
Qed.

(** A command line that is neither the [git show] nor the subject query git
    of a commit. *)
Definition foreign (args : list string) : Prop :=
  forall sha, args ≠ showCmd sha /\ args ≠ subjectCmd sha.

Ltac foreign := intros ?; split; intros [=]; discriminate.

Section Invariants.

Variable git : list string -> cmd_result.
Variable JaroWinklerDistance : string -> string -> Q -> Q.


(** [m] keeps the cache sound and only adds entries. *)
Definition preserves {A} (m : M A) : Prop :=
  forall w, cache_ok git w -> cache_ok git (snd (m w)) /\ cache_le w (snd (m w)).

(** [m] moreover returns [p] from every state with a sound cache. *)
Definition refines {A} (m : M A) (p : outcome A) : Prop :=
  preserves m /\ forall w, cache_ok git w -> fst (m w) = p.

Lemma cache_le_refl w : cache_le w w.
Proof. intros sha cd H. exact H. Qed.

Lemma cache_le_trans w1 w2 w3 : cache_le w1 w2 -> cache_le w2 w3 -> cache_le w1 w3.
Proof. intros H1 H2 sha cd H. apply H2, H1, H. Qed.

Lemma preserves_ret {A} (a : A) : preserves (ret a).
Proof. intros w H. split; [exact H|apply cache_le_refl]. Qed.

Lemma preserves_fail {A} e : preserves (@fail A e).
Proof. intros w H. split; [exact H|apply cache_le_refl]. Qed.

Lemma preserves_panic {A} msg : preserves (@panic A msg).
Proof. intros w H. split; [exact H|apply cache_le_refl]. Qed.

Lemma preserves_exit {A} c : preserves (@exit A c).
Proof. intros w H. split; [exact H|apply cache_le_refl]. Qed.

Lemma preserves_print l : preserves (print l).
Proof. intros w H. split; [exact H|intros sha cd E; exact E]. Qed.

Lemma preserves_bind {A B} (m : M A) (k : A -> M B) :
  preserves m -> (forall a, preserves (k a)) -> preserves (bind m k).
Proof.
  intros Hm Hk w H. unfold bind.
  destruct (Hm w H) as [H1 L1]. destruct (m w) as [[a|e|p|c] w']; simpl in *;
    try (split; assumption).
  destruct (Hk a w' H1) as [H2 L2].
  split; [exact H2|exact (cache_le_trans _ _ _ L1 L2)].
Qed.

Lemma preserves_call {A} (m : M (option A)) : preserves m -> preserves (call m).
Proof.
  intros Hm w H. unfold call. specialize (Hm w H).
  destruct (m w) as [[a|e|p|c] w']; exact Hm.
Qed.

Lemma preserves_die {A} msg arg : preserves (@die A msg arg).
Proof. apply preserves_bind; [apply preserves_print|intros; apply preserves_exit]. Qed.

Lemma cache_ok_started w args : foreign args -> cache_ok git w -> cache_ok git (started w args).
Proof.
  intros Hf H sha. specialize (H sha). destruct (Hf sha) as [F1 F2].
  unfold cached, started in *. simpl.
  rewrite !runs_snoc_ne by assumption. exact H.
Qed.

Lemma Output_eq args w :
  Output git args w =
  (match git args with Stdout out => Ret out | Failed err => Error err end,
   started w args).
Proof. unfold Output, started. destruct (git args); reflexivity. Qed.

Lemma preserves_Output args : foreign args -> preserves (Output git args).
Proof.
  intros Hf w H. rewrite Output_eq. simpl.
  split; [apply cache_ok_started; assumption|intros sha cd E; exact E].
Qed.

Lemma runCommandTrimmedOutput_eq args w :
  args ≠ [] ->
  runCommandTrimmedOutput git args w = (query git args, started w args).
Proof.
  intros Hne. destruct args as [|a args]; [congruence|].
  unfold runCommandTrimmedOutput, bind, query. rewrite Output_eq.
  destruct (git (a :: args)); reflexivity.
Qed.

Lemma refines_ret {A} (a : A) : refines (ret a) (Ret a).
Proof. split; [apply preserves_ret|reflexivity]. Qed.

Lemma refines_bind {A B} (m : M A) (k : A -> M B) p q :
  refines m p -> (forall a, refines (k a) (q a)) ->
  refines (bind m k) (bindO p q).
Proof.
  intros [Pm Rm] Hk. split.
  - apply preserves_bind; [exact Pm|intros a; apply Hk].
  - intros w H. unfold bind. specialize (Rm w H). destruct (Pm w H) as [H1 _].
    destruct (m w) as [[a|e|x|c] w']; simpl in *; subst p; try reflexivity.
    apply Hk, H1.
Qed.

Lemma refines_query args :
  args ≠ [] -> foreign args ->
  refines (runCommandTrimmedOutput git args) (query git args).
Proof.
  intros Hne Hf. split.
  - intros w H. rewrite runCommandTrimmedOutput_eq by exact Hne. simpl.
    split; [apply cache_ok_started; assumption|intros sha cd E; exact E].
  - intros w H. rewrite runCommandTrimmedOutput_eq by exact Hne. reflexivity.
Qed.

Lemma refines_getGitMergeBase a b :
  refines (getGitMergeBase git a b) (mergeBase git a b).
Proof. apply refines_query; [discriminate|foreign]. Qed.

Lemma refines_getGitRevParse s :
  refines (getGitRevParse git s) (revParse git s).
Proof. apply refines_query; [discriminate|foreign]. Qed.

Lemma refines_getGitDiff a b :
  refines (getGitDiff git a b) (combinedDiff git a b).
Proof. apply refines_query; [discriminate|foreign]. Qed.

Lemma getCommits_eq a b w :
  getCommits git a b w =
  (commitsBetween git a b,
   started w ["git"; "log"; "--format=format:%H"; a +:+ ".." +:+ b]).
Proof.
  unfold getCommits, runCommandSplitLines, commitsBetween, bind.
  rewrite runCommandTrimmedOutput_eq by discriminate.
  destruct (query git _); reflexivity.
Qed.

Lemma refines_getCommits a b :
  refines (getCommits git a b) (commitsBetween git a b).
Proof.
  split; intros w H; rewrite getCommits_eq; [|reflexivity]. simpl.
  split; [apply cache_ok_started; [foreign|exact H]|intros sha cd E; exact E].
Qed.

(** The state with the cache map allocated. *)
Definition allocated (w : world) : world :=
  {| CommitDiffCache := Some (default ∅ (CommitDiffCache w));
     trace := trace w;
     written := written w |}.

Lemma cached_allocated w sha : cached (allocated w) sha = cached w sha.
Proof. reflexivity. Qed.

Lemma getCommitDiff_hit sha cd w :
  cached w sha = Some cd -> getCommitDiff git sha w = (Ret cd, w).
Proof.
  unfold cached, getCommitDiff, bind, theCache. intros H.
  destruct (CommitDiffCache w) as [m|]; simpl in *.
  - rewrite H. reflexivity.
  - rewrite lookup_empty in H. discriminate.
Qed.

Lemma getCommitDiff_miss sha w :
  cached w sha = None ->
  getCommitDiff git sha w =
  match git (showCmd sha) with
  | Failed err => (Error err, started (allocated w) (showCmd sha))
  | Stdout contents =>
      match git (subjectCmd sha) with
      | Failed err =>
          (Error err,
           started (started (allocated w) (showCmd sha)) (subjectCmd sha))
      | Stdout subject =>
          let cd := {| Sha := sha;
                       Subject := TrimSpace subject;
                       Diff := removeGitShaFromGitDiff (diffOnly (TrimSpace contents)) |} in
          (Ret cd,
           {| CommitDiffCache := Some (<[sha := cd]> (default ∅ (CommitDiffCache w)));
              trace := (trace w ++ [showCmd sha]) ++ [subjectCmd sha];
              written := written w |})
      end
  end.
Proof.
  unfold cached. intros H.
  assert (E : theCache w = (Ret (default ∅ (CommitDiffCache w)), allocated w)).
  { unfold theCache, allocated. destruct w as [[m|] t o]; reflexivity. }
  unfold getCommitDiff, bind at 1. rewrite E, H.
  unfold getCommitDiffOnly, getCommitSubject, bind.
  rewrite runCommandTrimmedOutput_eq by discriminate.
  unfold query. fold (showCmd sha). destruct (git (showCmd sha)) as [contents|err];
    [|reflexivity].
  assert (D : forall w',
    match SplitN2 (TrimSpace contents) (nl +:+ "diff --git") with
    | [_; rest] => ret ("diff --git" +:+ rest)
    | _ => ret ""
    end w' = (Ret (diffOnly (TrimSpace contents)), w')).
  { intros w'. unfold diffOnly.
    destruct (SplitN2 _ _) as [|? [|? [|? ?]]]; reflexivity. }
  rewrite D. rewrite runCommandTrimmedOutput_eq by discriminate.
  unfold query. fold (subjectCmd sha). destruct (git (subjectCmd sha)); reflexivity.
Qed.

Lemma showCmd_inj a b : showCmd a = showCmd b -> a = b.
Proof. intros [=]. assumption. Qed.

Lemma subjectCmd_inj a b : subjectCmd a = subjectCmd b -> a = b.
Proof. intros [=]. assumption. Qed.

Lemma showCmd_subjectCmd a b : showCmd a ≠ subjectCmd b.
Proof. intros [=]. Qed.

Lemma fingerprintOf_eq sha :
  fingerprintOf git sha =
  match git (showCmd sha) with
  | Failed err => Error err
  | Stdout contents =>
      match git (subjectCmd sha) with
      | Failed err => Error err
      | Stdout subject =>
          Ret {| Sha := sha;
                 Subject := TrimSpace subject;
                 Diff := removeGitShaFromGitDiff (diffOnly (TrimSpace contents)) |}
      end
  end.
Proof.
  unfold fingerprintOf, query.
  destruct (git (showCmd sha)); [|reflexivity].
  destruct (git (subjectCmd sha)); reflexivity.
Qed.

(** Queries about one commit do not count for another. *)
Lemma cache_ok_other w w' sha :
  cache_ok git w ->
  (forall sha', sha' ≠ sha -> cached w' sha' = cached w sha') ->
  (forall sha', sha' ≠ sha ->
     runs (showCmd sha') (trace w') = runs (showCmd sha') (trace w)
     /\ runs (subjectCmd sha') (trace w') = runs (subjectCmd sha') (trace w)) ->
  match cached w' sha with
  | Some cd =>
      fingerprintOf git sha = Ret cd
      /\ runs (showCmd sha) (trace w') = 1%nat
      /\ runs (subjectCmd sha) (trace w') = 1%nat
  | None =>
      (exists cd, fingerprintOf git sha = Ret cd) ->
      runs (showCmd sha) (trace w') = 0%nat
      /\ runs (subjectCmd sha) (trace w') = 0%nat
  end ->
  cache_ok git w'.
Proof.
  intros H Hc Hr Hsha sha'. destruct (decide (sha' = sha)) as [->|Hne].
  - exact Hsha.
  - rewrite (Hc _ Hne). destruct (Hr _ Hne) as [-> ->]. apply H.
Qed.

Lemma refines_getCommitDiff sha :
  refines (getCommitDiff git sha) (fingerprintOf git sha).
Proof.
  assert (Hshow : forall sha' t, sha' ≠ sha ->
            runs (showCmd sha') (t ++ [showCmd sha]) = runs (showCmd sha') t
            /\ runs (subjectCmd sha') (t ++ [showCmd sha]) = runs (subjectCmd sha') t).
  { intros sha' t Hne. split; apply runs_snoc_ne.
    - intros E%showCmd_inj. congruence.
    - apply showCmd_subjectCmd. }
  assert (Hsubj : forall sha' t, sha' ≠ sha ->
            runs (showCmd sha') (t ++ [subjectCmd sha]) = runs (showCmd sha') t
            /\ runs (subjectCmd sha') (t ++ [subjectCmd sha]) = runs (subjectCmd sha') t).
  { intros sha' t Hne. split; apply runs_snoc_ne.
    - intros E. symmetry in E. revert E. apply showCmd_subjectCmd.
    - intros E%subjectCmd_inj. congruence. }
  cut (forall w, cache_ok git w ->
         (cache_ok git (snd (getCommitDiff git sha w))
          /\ cache_le w (snd (getCommitDiff git sha w)))
         /\ fst (getCommitDiff git sha w) = fingerprintOf git sha).
  { intros H. split; intros w Hw; apply (H w Hw). }
  intros w H. pose proof (H sha) as Hs.
  destruct (cached w sha) as [cd|] eqn:E.
  - rewrite (getCommitDiff_hit _ _ _ E). simpl.
    destruct Hs as (-> & _). repeat split; [exact H|apply cache_le_refl].
  - rewrite (getCommitDiff_miss _ _ E), fingerprintOf_eq.
    pose proof (fingerprintOf_eq sha) as F. rewrite F in Hs.
    destruct (git (showCmd sha)) as [contents|err]; simpl.
    + destruct (git (subjectCmd sha)) as [subject|err]; simpl.
      * destruct Hs as [R1 R2]; [eexists; reflexivity|].
        split; [split|reflexivity].
        -- apply (cache_ok_other w _ sha H).
           ++ intros sha' Hne. unfold cached. simpl.
              rewrite lookup_insert_ne by congruence. reflexivity.
           ++ intros sha' Hne. simpl.
              destruct (Hsubj sha' (trace w ++ [showCmd sha]) Hne) as [-> ->].
              apply Hshow, Hne.
           ++ unfold cached. simpl. rewrite lookup_insert_eq.
              split; [exact F|]. split.
              ** rewrite runs_snoc_ne, runs_snoc_eq, R1; [reflexivity|].
                 intros E'. symmetry in E'. revert E'. apply showCmd_subjectCmd.
              ** rewrite runs_snoc_eq, runs_snoc_ne, R2; [reflexivity|].
                 apply showCmd_subjectCmd.
        -- intros sha' cd' E'. unfold cached. simpl.
           rewrite lookup_insert_ne; [exact E'|]. intros <-. congruence.
      * split; [split|reflexivity].
        -- apply (cache_ok_other w _ sha H).
           ++ intros sha' Hne. reflexivity.
           ++ intros sha' Hne. simpl.
              destruct (Hsubj sha' (trace w ++ [showCmd sha]) Hne) as [-> ->].
              apply Hshow, Hne.
           ++ change (cached _ sha) with (cached w sha). rewrite E, F.
              intros [cd Hcd]. discriminate.
        -- intros sha' cd' E'. exact E'.
    + split; [split|reflexivity].
      * apply (cache_ok_other w _ sha H).
        -- intros sha' Hne. reflexivity.
        -- intros sha' Hne. simpl. apply Hshow, Hne.
        -- change (cached _ sha) with (cached w sha). rewrite E, F.
           intros [cd Hcd]. discriminate.
      * intros sha' cd' E'. exact E'.
Qed.

Lemma refines_bind_map {A B C} (m : M B) (k : B -> M C) (p : outcome A)
    (f : A -> B) (q : B -> outcome C) :
  refines m (x <-- p ;; Ret (f x)) -> (forall b, refines (k b) (q b)) ->
  refines (bind m k) (x <-- p ;; q (f x)).
Proof.
  intros Hm Hk. pose proof (refines_bind _ _ _ _ Hm Hk) as R.
  destruct p; exact R.
Qed.

Lemma refines_scanTrunk branchDiff combined commits : forall h,
  refines (scanTrunk git JaroWinklerDistance branchDiff combined commits h)
    (trunk <-- mapO (fingerprintOf git) commits ;;
     Ret (bestMatch JaroWinklerDistance (Subject branchDiff) combined trunk h)).
Proof.
  induction commits as [|commit commits IH]; intros h.
  - apply refines_ret.
  - simpl scanTrunk. simpl mapO.
    set (next := fun commitDiff : CommitDiff =>
           if Qgtb (JaroWinklerDistance (Subject branchDiff) (Subject commitDiff) (1 # 10))
                (highestSubjectScore h)
           then {| highestSubjectScore :=
                     JaroWinklerDistance (Subject branchDiff) (Subject commitDiff) (1 # 10);
                   highestDiff := Some commitDiff;
                   highestCombinedDiff := combined |}
           else h).
    assert (E :
      (trunk <-- (y <-- fingerprintOf git commit ;;
                  ys <-- mapO (fingerprintOf git) commits ;; Ret (y :: ys)) ;;
       Ret (bestMatch JaroWinklerDistance (Subject branchDiff) combined trunk h))
      = (y <-- fingerprintOf git commit ;;
         trunk <-- mapO (fingerprintOf git) commits ;;
         Ret (bestMatch JaroWinklerDistance (Subject branchDiff) combined trunk (next y)))).
    { destruct (fingerprintOf git commit); simpl; try reflexivity.
      destruct (mapO (fingerprintOf git) commits); reflexivity. }
    rewrite E. apply refines_bind; [apply refines_getCommitDiff|].
    intros commitDiff. apply IH.
Qed.

(** The program computes the detector of the repository, whatever the
    cache holds, and leaves the cache sound. *)
Lemma findMerged_refines currentBranch branch :
  refines (findMerged git JaroWinklerDistance currentBranch branch)
    (detectMerge git JaroWinklerDistance currentBranch branch).
Proof.
  unfold findMerged, detectMerge.
  apply refines_bind; [apply refines_getGitMergeBase|intros base].
  apply refines_bind; [apply refines_getGitRevParse|intros branchSha].
  destruct (decide (base = branchSha)); [apply refines_ret|].
  apply refines_bind; [apply refines_getCommits|intros branchCommits].
  destruct branchCommits as [|commit0 rest].
  { split; [apply preserves_panic|reflexivity]. }
  apply refines_bind; [apply refines_getCommitDiff|intros branchDiff].
  apply refines_bind.
  { destruct (1 <? length (commit0 :: rest))%nat;
      [apply refines_getGitDiff|apply refines_ret]. }
  intros combined.
  apply refines_bind; [apply refines_getCommits|intros commits].
  apply (refines_bind_map _ _ (mapO (fingerprintOf git) commits)
           (fun trunk => bestMatch JaroWinklerDistance (Subject branchDiff)
                           combined trunk nothingYet)
           (verdict git JaroWinklerDistance branch base (commit0 :: rest) branchDiff)).
  { apply refines_scanTrunk. }
  intros h. unfold verdict. destruct (highestDiff h) as [best|]; [|apply refines_ret].
  destruct (decide (highestCombinedDiff h = "")).
  - destruct (decide (length (commit0 :: rest) = 1%nat)); [apply refines_ret|].
    split; [apply preserves_panic|reflexivity].
  - apply refines_bind; [apply refines_getGitDiff|intros d; apply refines_ret].
Qed.

Lemma preserves_query args :
  args ≠ [] -> foreign args -> preserves (runCommandTrimmedOutput git args).
Proof. intros Hne Hf. apply (refines_query args Hne Hf). Qed.

Lemma preserves_deleteOrDie branch : preserves (deleteOrDie git branch).
Proof.
  unfold deleteOrDie, deleteBranch.
  apply preserves_bind.
  - apply preserves_call.
    repeat (apply preserves_bind; [|intros ?]);
      first [apply preserves_print|apply preserves_ret|idtac].
    apply preserves_Output. foreign.
  - intros r. destruct (snd r); [apply preserves_die|apply preserves_ret].
Qed.

Lemma preserves_report progOpts branch potentialMerged :
  preserves (report git progOpts branch potentialMerged).
Proof.
  unfold report.
  repeat match goal with
         | |- preserves (if ?b then _ else _) => destruct b
         | |- preserves (bind _ _) => apply preserves_bind; [|intros ?]
         | |- preserves (print _) => apply preserves_print
         | |- preserves (ret _) => apply preserves_ret
         | |- preserves (deleteOrDie _ _) => apply preserves_deleteOrDie
         end.
Qed.

Lemma preserves_visit progOpts currentBranch branch :
  preserves (visit git JaroWinklerDistance progOpts currentBranch branch).
Proof.
  unfold visit. destruct (decide (branch = currentBranch)); [apply preserves_ret|].
  apply preserves_bind; [apply preserves_call, findMerged_refines|intros r].
  apply preserves_bind.
  - destruct (snd r); [apply preserves_print|apply preserves_ret].
  - intros _. destruct (fst r); [apply preserves_report|apply preserves_ret].
Qed.

Lemma preserves_visitAll progOpts currentBranch branches :
  preserves (visitAll git JaroWinklerDistance progOpts currentBranch branches).
Proof.
  induction branches as [|branch branches IH]; simpl; [apply preserves_ret|].
  apply preserves_bind; [apply preserves_visit|intros _; exact IH].
Qed.

Lemma preserves_main progOpts :
  preserves (main git JaroWinklerDistance progOpts).
Proof.
  unfold main, getBranches, getCurrentBranch, runCommandSplitLines.
  apply preserves_bind.
  { apply preserves_call.
    repeat (apply preserves_bind; [|intros ?; try apply preserves_ret]).
    first [apply preserves_query; [discriminate|foreign]
          |apply preserves_Output; foreign]. }
  intros [[branches|] err]; [|apply preserves_die].
  apply preserves_bind.
  { apply preserves_call.
    repeat (apply preserves_bind; [|intros ?; try apply preserves_ret]).
    first [apply preserves_query; [discriminate|foreign]
          |apply preserves_Output; foreign]. }
  intros [[currentBranch|] err']; [|apply preserves_die].
  destruct (_ || _); [apply preserves_visitAll|apply preserves_die].
Qed.

Lemma preserves_step w w' :
  step git JaroWinklerDistance w w' -> cache_ok git w -> cache_ok git w' /\ cache_le w w'.
Proof.
  intros [sha w0|cb b w0|o cb b w0|o w0] H.
  - apply (refines_getCommitDiff sha), H.
  - apply (findMerged_refines cb b), H.
  - apply preserves_visit, H.
  - apply preserves_main, H.
Qed.

Lemma preserves_reached w w' :
  reached git JaroWinklerDistance w w' -> cache_ok git w -> cache_ok git w' /\ cache_le w w'.
Proof.
  induction 1 as [w|w w' w'' _ IH S]; intros H.
  - split; [exact H|apply cache_le_refl].
  - destruct (IH H) as [H' L']. destruct (preserves_step _ _ S H') as [H'' L''].
    split; [exact H''|exact (cache_le_trans _ _ _ L' L'')].
Qed.

Lemma cache_ok_initial : cache_ok git initial.
Proof.
  intros sha. unfold cached. simpl. rewrite lookup_empty. intros _.
  split; reflexivity.
Qed.

End Invariants.

(* ===================================================================== *)
(** ** The best match of the loop over the trunk commits *)
(* ===================================================================== *)

Lemma Qgtb_true a b : Qgtb a b = true <-> (b < a)%Q.
Proof.
  unfold Qgtb. rewrite negb_true_iff. split.
  - intros H. apply Qnot_le_lt. intros L. apply Qle_bool_iff in L. congruence.
  - intros H. destruct (Qle_bool a b) eqn:E; [|reflexivity].
    apply Qle_bool_iff in E. exfalso. exact (Qlt_not_le _ _ H E).
Qed.

Lemma Qgtb_false a b : Qgtb a b = false <-> (a <= b)%Q.
Proof.
  unfold Qgtb. rewrite negb_false_iff. apply Qle_bool_iff.
Qed.

Section BestMatch.

Variable JaroWinklerDistance : string -> string -> Q -> Q.
Variable subject combined : string.

(** The subject similarity of a trunk commit to the representative. *)
Definition score (fp : CommitDiff) : Q :=
  JaroWinklerDistance subject (Subject fp) (1 # 10).


(** [best] is the first commit of [trunk] with the highest similarity,
    and that similarity is positive. *)
Definition firstBest (trunk : list CommitDiff) (best : CommitDiff) : Prop :=
  exists before after,
    trunk = before ++ best :: after
    /\ Forall (fun fp => (score fp < score best)%Q) before
    /\ Forall (fun fp => (score fp <= score best)%Q) after
    /\ (0 < score best)%Q.

Lemma bestMatch_cons fp trunk h :
  bestMatch JaroWinklerDistance subject combined (fp :: trunk) h =
  bestMatch JaroWinklerDistance subject combined trunk
    (if Qgtb (score fp) (highestSubjectScore h)
     then {| highestSubjectScore := score fp;
             highestDiff := Some fp;
             highestCombinedDiff := combined |}
     else h).
Proof. reflexivity. Qed.

Lemma bestMatch_app l1 : forall l2 h,
  bestMatch JaroWinklerDistance subject combined (l1 ++ l2) h = bestMatch JaroWinklerDistance subject combined l2 (bestMatch JaroWinklerDistance subject combined l1 h).
Proof.
  induction l1 as [|fp l1 IH]; intros l2 h; [reflexivity|].
  rewrite <- app_comm_cons, !bestMatch_cons. apply IH.
Qed.

Lemma bestMatch_keep l : forall h,
  Forall (fun fp => (score fp <= highestSubjectScore h)%Q) l ->
  bestMatch JaroWinklerDistance subject combined l h = h.
Proof.
  induction l as [|fp l IH]; intros h H; [reflexivity|].
  inversion H as [|? ? Hfp Hl]; subst. rewrite bestMatch_cons.
  apply Qgtb_false in Hfp. rewrite Hfp. apply IH, Hl.
Qed.

Lemma bestMatch_below x l : forall h,
  (highestSubjectScore h < x)%Q ->
  Forall (fun fp => (score fp < x)%Q) l ->
  (highestSubjectScore (bestMatch JaroWinklerDistance subject combined l h) < x)%Q.
Proof.
  induction l as [|fp l IH]; intros h Hh H; [exact Hh|].
  inversion H as [|? ? Hfp Hl]; subst. rewrite bestMatch_cons.
  apply IH; [|exact Hl].
  destruct (Qgtb (score fp) (highestSubjectScore h)); [exact Hfp|exact Hh].
Qed.

(** Ties keep the first maximum. *)
Lemma bestMatch_firstBest trunk best :
  firstBest trunk best ->
  bestMatch JaroWinklerDistance subject combined trunk nothingYet =
  {| highestSubjectScore := score best;
     highestDiff := Some best;
     highestCombinedDiff := combined |}.
Proof.
  intros (before & after & -> & Hb & Ha & Hpos).
  rewrite bestMatch_app, bestMatch_cons.
  pose proof (bestMatch_below (score best) before nothingYet Hpos Hb) as Hlt.
  apply Qgtb_true in Hlt. rewrite Hlt.
  apply bestMatch_keep. exact Ha.
Qed.

(** What the loop has found so far, over the commits [seen]. *)
Definition found (seen : list CommitDiff) (h : highest) : Prop :=
  match highestDiff h with
  | None => h = nothingYet
  | Some best =>
      In best seen
      /\ highestCombinedDiff h = combined
      /\ highestSubjectScore h = score best
      /\ (0 < score best)%Q
  end.

Lemma found_nonneg seen h : found seen h -> (0 <= highestSubjectScore h)%Q.
Proof.
  unfold found. destruct (highestDiff h).
  - intros (_ & _ & -> & H). apply Qlt_le_weak, H.
  - intros ->. apply Qle_refl.
Qed.

Lemma bestMatch_found seen l : forall h,
  (forall fp, In fp l -> In fp seen) ->
  found seen h -> found seen (bestMatch JaroWinklerDistance subject combined l h).
Proof.
  induction l as [|fp l IH]; intros h Hin Hh; [exact Hh|].
  rewrite bestMatch_cons. apply IH; [intros x Hx; apply Hin; right; exact Hx|].
  destruct (Qgtb (score fp) (highestSubjectScore h)) eqn:E; [|exact Hh].
  apply Qgtb_true in E. unfold found. simpl.
  repeat split; [apply Hin; left; reflexivity|].
  eapply Qle_lt_trans; [apply (found_nonneg _ _ Hh)|exact E].
Qed.

Lemma bestMatch_stays l : forall h,
  highestDiff h <> None -> highestDiff (bestMatch JaroWinklerDistance subject combined l h) <> None.
Proof.
  induction l as [|fp l IH]; intros h H; [exact H|].
  rewrite bestMatch_cons. apply IH.
  destruct (Qgtb (score fp) (highestSubjectScore h)); [discriminate|exact H].
Qed.

(** Nothing is found exactly when no commit has a positive similarity. *)
Lemma bestMatch_nothing l :
  highestDiff (bestMatch JaroWinklerDistance subject combined l nothingYet) = None
  <-> Forall (fun fp => (score fp <= 0)%Q) l.
Proof.
  induction l as [|fp l IH].
  - split; [constructor|reflexivity].
  - rewrite bestMatch_cons.
    destruct (Qgtb (score fp) (highestSubjectScore nothingYet)) eqn:E.
    + apply Qgtb_true in E. split.
      * intros H. exfalso. revert H. apply bestMatch_stays. discriminate.
      * intros H. exfalso. inversion H as [|? ? Hfp _]; subst.
        exact (Qlt_not_le _ _ E Hfp).
    + apply Qgtb_false in E. rewrite IH. split.
      * intros H. constructor; [exact E|exact H].
      * intros H. inversion H; subst. assumption.
Qed.

End BestMatch.

(* ===================================================================== *)
(** ** The merge detector *)
(* ===================================================================== *)

Section Detector.

Variable git : list string -> cmd_result.
Variable JaroWinklerDistance : string -> string -> Q -> Q.


Lemma findMerged_detectMerge currentBranch branch w :
  cache_ok git w ->
  fst (findMerged git JaroWinklerDistance currentBranch branch w) = detectMerge git JaroWinklerDistance currentBranch branch.
Proof. apply (findMerged_refines git JaroWinklerDistance currentBranch branch). Qed.

Lemma bindO_Ret {A B} (o : outcome A) (k : A -> outcome B) b :
  bindO o k = Ret b -> exists a, o = Ret a /\ k a = Ret b.
Proof. destruct o; try discriminate. intros H. eexists. split; [reflexivity|exact H]. Qed.

(** The detector on a branch that has left trunk at [base] with the new
    commits [newest :: older]: what remains after the representative
    commit is fingerprinted. *)
Lemma detectMerge_representative currentBranch branch base tip newest older
    branchDiff :
  mergeBase git currentBranch branch = Ret base ->
  revParse git branch = Ret tip ->
  base <> tip ->
  commitsBetween git base branch = Ret (newest :: older) ->
  fingerprintOf git newest = Ret branchDiff ->
  detectMerge git JaroWinklerDistance currentBranch branch =
  (combined <-- (if (1 <? length (newest :: older))%nat
                 then combinedDiff git base branch else Ret "") ;;
   commits <-- commitsBetween git base currentBranch ;;
   trunk <-- mapO (fingerprintOf git) commits ;;
   verdict git JaroWinklerDistance branch base (newest :: older) branchDiff
     (bestMatch JaroWinklerDistance (Subject branchDiff) combined trunk nothingYet)).
Proof.
  intros Hb Ht Hne Hc Hf. unfold detectMerge.
  rewrite Hb. simpl. rewrite Ht. simpl.
  destruct (decide (base = tip)); [contradiction|].
  rewrite Hc. simpl. rewrite Hf. reflexivity.
Qed.

(** The same, up to the loop over the trunk commits. *)
Lemma detectMerge_diverged currentBranch branch base tip newest older
    branchDiff commits trunk :
  mergeBase git currentBranch branch = Ret base ->
  revParse git branch = Ret tip ->
  base <> tip ->
  commitsBetween git base branch = Ret (newest :: older) ->
  fingerprintOf git newest = Ret branchDiff ->
  commitsBetween git base currentBranch = Ret commits ->
  mapO (fingerprintOf git) commits = Ret trunk ->
  detectMerge git JaroWinklerDistance currentBranch branch =
  (combined <-- (if (1 <? length (newest :: older))%nat
                 then combinedDiff git base branch else Ret "") ;;
   verdict git JaroWinklerDistance branch base (newest :: older) branchDiff
     (bestMatch JaroWinklerDistance (Subject branchDiff) combined trunk nothingYet)).
Proof.
  intros Hb Ht Hne Hc Hf Hcs Htr.
  rewrite (detectMerge_representative _ _ _ _ _ _ _ Hb Ht Hne Hc Hf).
  destruct (if (1 <? length (newest :: older))%nat
            then combinedDiff git base branch else Ret ""); simpl;
    [rewrite Hcs; simpl; rewrite Htr| | |]; reflexivity.
Qed.

Lemma fingerprintOf_Sha sha cd : fingerprintOf git sha = Ret cd -> Sha cd = sha.
Proof.
  unfold fingerprintOf.
  destruct (query git (showCmd sha)); try discriminate.
  destruct (query git (subjectCmd sha)); try discriminate.
  simpl. intros [= <-]. reflexivity.
Qed.

(** A fuzzy verdict names the representative commit and scores its
    subject against a commit of trunk. *)
Lemma verdict_Some branch base branchCommits branchDiff combined trunk v :
  verdict git JaroWinklerDistance branch base branchCommits branchDiff
    (bestMatch JaroWinklerDistance (Subject branchDiff) combined trunk nothingYet)
  = Ret (Some v) ->
  Merged v = false
  /\ MergedSha v = Sha branchDiff
  /\ exists best,
       In best trunk
       /\ SubjectScore v = JaroWinklerDistance (Subject branchDiff) (Subject best) (1 # 10).
Proof.
  intros E. unfold verdict in E.
  pose proof (bestMatch_found JaroWinklerDistance (Subject branchDiff) combined
                trunk trunk nothingYet (fun _ H => H) eq_refl) as F.
  unfold found in F.
  destruct (highestDiff _) as [best|]; [|discriminate].
  destruct F as (Hin & _ & Hs & _).
  destruct (decide (highestCombinedDiff _ = "")).
  - destruct (decide (length branchCommits = 1%nat)); [|discriminate].
    injection E as <-. simpl. repeat split.
    exists best. split; [exact Hin|exact Hs].
  - destruct (combinedDiff git (Sha best +:+ "^") (Sha best)); try discriminate.
    injection E as <-. simpl. repeat split.
    exists best. split; [exact Hin|exact Hs].
Qed.

(** No verdict and no error: no commit of trunk has a positive
    similarity. *)
Lemma verdict_None branch base branchCommits branchDiff combined trunk :
  verdict git JaroWinklerDistance branch base branchCommits branchDiff
    (bestMatch JaroWinklerDistance (Subject branchDiff) combined trunk nothingYet)
  = Ret None
  <-> Forall (fun fp => (score JaroWinklerDistance (Subject branchDiff) fp <= 0)%Q) trunk.
Proof.
  rewrite <- bestMatch_nothing with (combined := combined). unfold verdict.
  destruct (highestDiff _) as [best|]; [|split; reflexivity].
  split; [|discriminate].
  destruct (decide (highestCombinedDiff _ = "")).
  - destruct (decide (length branchCommits = 1%nat)); discriminate.
  - destruct (combinedDiff git (Sha best +:+ "^") (Sha best)); discriminate.
Qed.

(** Some commit of trunk has a positive similarity: the loop has a best
    match, and has recorded the combined diff of the branch with it. *)
Lemma bestMatch_similar subject combined trunk :
  Exists (fun fp => (0 < score JaroWinklerDistance subject fp)%Q) trunk ->
  exists best,
    highestDiff (bestMatch JaroWinklerDistance subject combined trunk nothingYet)
    = Some best
    /\ highestCombinedDiff (bestMatch JaroWinklerDistance subject combined trunk nothingYet)
       = combined.
Proof.
  intros Hex.
  pose proof (bestMatch_found JaroWinklerDistance subject combined
                trunk trunk nothingYet (fun _ H => H) eq_refl) as F.
  unfold found in F.
  destruct (highestDiff _) as [best|] eqn:E.
  - exists best. split; [reflexivity|apply F].
  - exfalso. apply bestMatch_nothing in E.
    apply Exists_exists in Hex as (fp & Hin & Hpos).
    rewrite Forall_forall in E. exact (Qlt_not_le _ _ Hpos (E fp Hin)).
Qed.

(** C4: when the tip of the branch is the merge base, [findMerged git JaroWinklerDistance]
    returns the exact verdict (both scores 1.0, no commits), having
    started the merge-base and the rev-parse query and nothing else: no
    commit of trunk is listed, shown or compared, and the cache is left
    as it was. *)
Theorem findMerged_tip_is_base currentBranch branch base w :
  mergeBase git currentBranch branch = Ret base ->
  revParse git branch = Ret base ->
  findMerged git JaroWinklerDistance currentBranch branch w =
  (Ret (Some {| Branch := branch;
                MergedSha := base;
                Merged := true;
                SubjectScore := 1;
                DiffScore := 1;
                DiffSize := 0;
                NumCommits := 0;
                DiffCmd := "" |}),
   {| CommitDiffCache := CommitDiffCache w;
      trace := trace w ++ [["git"; "merge-base"; currentBranch; branch];
                           ["git"; "rev-parse"; branch]];
      written := written w |}).
Proof.
  intros Hb Ht. unfold findMerged, bind, getGitMergeBase, getGitRevParse.
  rewrite runCommandTrimmedOutput_eq by discriminate.
  unfold mergeBase in Hb. rewrite Hb.
  rewrite runCommandTrimmedOutput_eq by discriminate.
  unfold revParse in Ht. rewrite Ht.
  destruct (decide (base = base)); [|contradiction].
  unfold ret, started. simpl. rewrite <- app_assoc. reflexivity.
Qed.

(** C1, as amended: a branch with more than one commit and a non-empty
    combined diff, for which [best] is the first trunk commit of highest
    (and positive) subject similarity to the subject of the first
    listed branch commit: when the combined diff of [best] against its
    parent is the very text of the combined diff of the branch, and the
    similarity of that text with itself is 1.0, the verdict has
    [DiffScore] 1.0 and [NumCommits] the number of branch commits. *)
Theorem squash_merge_detected currentBranch branch w base tip newest older
    branchDiff d commits trunk best :
  cache_ok git w ->
  mergeBase git currentBranch branch = Ret base ->
  revParse git branch = Ret tip ->
  base <> tip ->
  commitsBetween git base branch = Ret (newest :: older) ->
  older <> [] ->
  fingerprintOf git newest = Ret branchDiff ->
  combinedDiff git base branch = Ret d ->
  d <> "" ->
  commitsBetween git base currentBranch = Ret commits ->
  mapO (fingerprintOf git) commits = Ret trunk ->
  firstBest JaroWinklerDistance (Subject branchDiff) trunk best ->
  combinedDiff git (Sha best +:+ "^") (Sha best) = Ret d ->
  (JaroWinklerDistance d d (1 # 10) == 1)%Q ->
  exists v,
    fst (findMerged git JaroWinklerDistance currentBranch branch w) = Ret (Some v)
    /\ Merged v = false
    /\ (DiffScore v == 1)%Q
    /\ NumCommits v = Z.of_nat (length (newest :: older))
    /\ DiffSize v = len d
    /\ SubjectScore v = score JaroWinklerDistance (Subject branchDiff) best.
Proof.
  intros Hw Hb Ht Hne Hc Ho Hf Hd Hd0 Hcs Htr Hbest HdM Hjw.
  rewrite (findMerged_detectMerge _ _ _ Hw).
  rewrite (detectMerge_diverged _ _ _ _ _ _ _ _ _ Hb Ht Hne Hc Hf Hcs Htr).
  destruct older as [|older0 older]; [congruence|].
  simpl Nat.ltb. cbv iota. rewrite Hd. simpl bindO.
  unfold verdict. rewrite (bestMatch_firstBest _ _ _ _ _ Hbest). simpl highestDiff.
  simpl highestCombinedDiff. simpl highestSubjectScore.
  destruct (decide (d = "")); [contradiction|].
  rewrite HdM. simpl bindO.
  eexists. split; [reflexivity|]. simpl. repeat split. exact Hjw.
Qed.

(** C5, as amended: the representative commit is element 0 of the
    sequence of [getCommits]; as [git log] lists the commits latest
    first, it is the latest new commit of the branch (its tip), not the
    earliest.  Every fuzzy verdict carries its sha, and its subject
    score JaroWinklerDistance is the similarity of its subject to that of a trunk commit. *)
Theorem representative_is_latest currentBranch branch w base tip chron newest
    branchDiff v :
  cache_ok git w ->
  mergeBase git currentBranch branch = Ret base ->
  revParse git branch = Ret tip ->
  base <> tip ->
  commitsBetween git base branch = Ret (rev chron) ->
  last chron = Some newest ->
  fingerprintOf git newest = Ret branchDiff ->
  fst (findMerged git JaroWinklerDistance currentBranch branch w) = Ret (Some v) ->
  Merged v = false
  /\ MergedSha v = newest
  /\ exists commits trunk best,
       commitsBetween git base currentBranch = Ret commits
       /\ mapO (fingerprintOf git) commits = Ret trunk
       /\ In best trunk
       /\ SubjectScore v = JaroWinklerDistance (Subject branchDiff) (Subject best) (1 # 10).
Proof.
  intros Hw Hb Ht Hne Hc Hl Hf Hv.
  rewrite (findMerged_detectMerge _ _ _ Hw) in Hv.
  apply last_Some in Hl as [chron' ->]. rewrite rev_app_distr in Hc. simpl in Hc.
  rewrite (detectMerge_representative _ _ _ _ _ _ _ Hb Ht Hne Hc Hf) in Hv.
  apply bindO_Ret in Hv as (combined & _ & Hv).
  apply bindO_Ret in Hv as (commits & Hcs & Hv).
  apply bindO_Ret in Hv as (trunk & Htr & Hv).
  apply verdict_Some in Hv as (R1 & R2 & best & R3 & R4).
  rewrite (fingerprintOf_Sha _ _ Hf) in R2.
  repeat split; [exact R1|exact R2|].
  exists commits, trunk, best. repeat split; assumption.
Qed.

(** C8, as amended: past the exact test, with every query answered,
    [findMerged git JaroWinklerDistance] returns no verdict and no error exactly when no trunk
    commit since the merge base has a positive subject similarity to
    the representative commit; the empty sequence is one such case. A
    single-commit branch with a trunk commit of positive similarity
    gets a verdict. *)
Theorem no_verdict_iff_no_similar_subject currentBranch branch w base tip
    newest older branchDiff combined commits trunk :
  cache_ok git w ->
  mergeBase git currentBranch branch = Ret base ->
  revParse git branch = Ret tip ->
  base <> tip ->
  commitsBetween git base branch = Ret (newest :: older) ->
  fingerprintOf git newest = Ret branchDiff ->
  (older <> [] -> combinedDiff git base branch = Ret combined) ->
  commitsBetween git base currentBranch = Ret commits ->
  mapO (fingerprintOf git) commits = Ret trunk ->
  (fst (findMerged git JaroWinklerDistance currentBranch branch w) = Ret None
   <-> Forall (fun fp => (score JaroWinklerDistance (Subject branchDiff) fp <= 0)%Q) trunk)
  /\ (commits = [] -> fst (findMerged git JaroWinklerDistance currentBranch branch w) = Ret None)
  /\ (older = [] ->
      Exists (fun fp => (0 < score JaroWinklerDistance (Subject branchDiff) fp)%Q) trunk ->
      exists v, fst (findMerged git JaroWinklerDistance currentBranch branch w) = Ret (Some v)
                /\ Merged v = false).
Proof.
  intros Hw Hb Ht Hne Hc Hf Hd Hcs Htr.
  rewrite (findMerged_detectMerge _ _ _ Hw).
  rewrite (detectMerge_diverged _ _ _ _ _ _ _ _ _ Hb Ht Hne Hc Hf Hcs Htr).
  destruct older as [|o older]; simpl Nat.ltb; cbv iota.
  - simpl bindO. split; [apply verdict_None|]. split.
    + intros ->. simpl in Htr. injection Htr as <-. apply verdict_None. constructor.
    + intros _ Hex. unfold verdict.
      destruct (bestMatch_similar (Subject branchDiff) "" trunk Hex)
        as (best & -> & ->).
      destruct (decide ("" = "")); [|contradiction].
      destruct (decide (length [newest] = 1%nat)); [|contradiction].
      eexists. split; reflexivity.
  - rewrite Hd by discriminate. simpl bindO.
    split; [apply verdict_None|]. split.
    + intros ->. simpl in Htr. injection Htr as <-. apply verdict_None. constructor.
    + discriminate.
Qed.

(** C10: a branch with more than one commit whose combined diff is the
    empty text, on a trunk with a commit of positive subject
    similarity: [findMerged git JaroWinklerDistance] takes the single-commit path, because the
    empty [highestCombinedDiff] is what selects it, and panics with
    "expected single commit". *)
Theorem empty_combined_diff_panics currentBranch branch w base tip newest older
    branchDiff commits trunk :
  cache_ok git w ->
  mergeBase git currentBranch branch = Ret base ->
  revParse git branch = Ret tip ->
  base <> tip ->
  commitsBetween git base branch = Ret (newest :: older) ->
  older <> [] ->
  fingerprintOf git newest = Ret branchDiff ->
  combinedDiff git base branch = Ret "" ->
  commitsBetween git base currentBranch = Ret commits ->
  mapO (fingerprintOf git) commits = Ret trunk ->
  Exists (fun fp => (0 < score JaroWinklerDistance (Subject branchDiff) fp)%Q) trunk ->
  fst (findMerged git JaroWinklerDistance currentBranch branch w) = Panicked "expected single commit".
Proof.
  intros Hw Hb Ht Hne Hc Ho Hf Hd Hcs Htr Hex.
  rewrite (findMerged_detectMerge _ _ _ Hw).
  rewrite (detectMerge_diverged _ _ _ _ _ _ _ _ _ Hb Ht Hne Hc Hf Hcs Htr).
  destruct older as [|o older]; [congruence|].
  simpl Nat.ltb. cbv iota. rewrite Hd. simpl bindO. unfold verdict.
  destruct (bestMatch_similar (Subject branchDiff) "" trunk Hex) as (best & -> & ->).
  destruct (decide ("" = "")); [|contradiction].
  destruct (decide (length (newest :: o :: older) = 1%nat)); [discriminate|].
  reflexivity.
Qed.

End Detector.

(* ===================================================================== *)
(** ** The fingerprint cache *)
(* ===================================================================== *)

Section Cache.

Variable git : list string -> cmd_result.
Variable JaroWinklerDistance : string -> string -> Q -> Q.

(** A successful lookup leaves the fingerprint in the cache. *)
Lemma getCommitDiff_caches sha cd w :
  fst (getCommitDiff git sha w) = Ret cd ->
  cached (snd (getCommitDiff git sha w)) sha = Some cd.
Proof.
  destruct (cached w sha) as [cd'|] eqn:E.
  - rewrite (getCommitDiff_hit git _ _ _ E). simpl. intros [= <-]. exact E.
  - rewrite (getCommitDiff_miss git _ _ E).
    destruct (git (showCmd sha)); [|discriminate].
    destruct (git (subjectCmd sha)); [|discriminate].
    simpl. intros [= <-]. unfold cached. simpl. apply lookup_insert_eq.
Qed.

(** C9: in every state of a run, a commit that has been fingerprinted
    (it is in the cache) has had its [git show] and its subject query
    started at most once; and once a lookup of a commit has returned a
    fingerprint, every later lookup of it in the run returns that same
    fingerprint and starts no process. *)
Theorem fingerprint_cache w :
  reached git JaroWinklerDistance initial w ->
  (forall sha, is_Some (cached w sha) ->
     (runs (showCmd sha) (trace w) <= 1)%nat
     /\ (runs (subjectCmd sha) (trace w) <= 1)%nat)
  /\ (forall sha cd w',
        fst (getCommitDiff git sha w) = Ret cd ->
        reached git JaroWinklerDistance (snd (getCommitDiff git sha w)) w' ->
        getCommitDiff git sha w' = (Ret cd, w')).
Proof.
  intros Hr.
  destruct (preserves_reached git JaroWinklerDistance _ _ Hr (cache_ok_initial git))
    as [Hok _].
  split.
  - intros sha [cd Hcd]. specialize (Hok sha). rewrite Hcd in Hok.
    destruct Hok as (_ & -> & ->). split; apply le_n.
  - intros sha cd w' Hcd Hr'.
    destruct (refines_getCommitDiff git sha) as [Hp _].
    destruct (Hp w Hok) as [Hok1 _].
    destruct (preserves_reached git JaroWinklerDistance _ _ Hr' Hok1) as [_ Hle].
    apply getCommitDiff_hit, Hle, getCommitDiff_caches, Hcd.
Qed.

End Cache.

(* ===================================================================== *)
(** ** The reporting loop *)
(* ===================================================================== *)

Definition withPerfect (perfect : bool) (progOpts : opts) : opts :=
  {| Verbose := Verbose progOpts;
     Version := Version progOpts;
     Perfect := perfect;
     MinSubjectScore := MinSubjectScore progOpts;
     MinDiffScore := MinDiffScore progOpts |}.

Lemma report_ignores_Perfect git progOpts perfect branch potentialMerged :
  report git (withPerfect perfect progOpts) branch potentialMerged
  = report git progOpts branch potentialMerged.
Proof. reflexivity. Qed.

(** C3: the code with [--perfect] set.  On the repository [reworked],
    whose branch [feature] matches the trunk commit [C2] with subject
    score 1.0 and diff score 353/355 (an imperfect match above both
    thresholds), [main] writes the "potentially merged" advisory with
    its diff command and delete hint; [report] never reads the
    option. *)
Theorem perfect_option_has_no_effect :
  written (snd (main Scenario.reworked Scenario.jw
                  (withPerfect true Scenario.defaults) initial))
  = [OutPotentiallyMerged "feature" "D" 1 (353 # 355);
     OutText "meld <(git show feature) <(git show C2)";
     OutDeleteHint "feature";
     OutBlank]
  /\ forall git progOpts branch potentialMerged,
       report git (withPerfect true progOpts) branch potentialMerged
       = report git (withPerfect false progOpts) branch potentialMerged.
Proof. split; [vm_compute; reflexivity|intros; reflexivity]. Qed.

(* ===================================================================== *)
(** ** Worked examples *)
(* ===================================================================== *)

Module Examples.

Import Scenario.

(** C2: the code on the rebase scenario.  The best-matching trunk
    commit is [C2] (the diff command names it); the verdict's
    [MergedSha] is [D], the commit of the branch itself. *)
Theorem rebased_verdict_names_branch_commit :
  fst (findMerged rebased jw "main" "feature" initial)
  = Ret (Some {| Branch := "feature";
                 MergedSha := "D";
                 Merged := false;
                 SubjectScore := 1;
                 DiffScore := 1;
                 DiffSize := 138;
                 NumCommits := 1;
                 DiffCmd := "meld <(git show feature) <(git show C2)" |})
  /\ commitsBetween rebased "A" "feature" = Ret ["D"]
  /\ commitsBetween rebased "A" "main" = Ret ["C2"; "C"; "B"]
  /\ written (snd (main rebased jw defaults initial))
     = [OutMerged "feature" "D" 1 1; OutDeleting "feature"; OutBlank].
Proof. repeat apply conj; vm_compute; reflexivity. Qed.

Lemma findMerged_tip_is_base_witness :
  findMerged merged jw "main" "done" initial
  = (Ret (Some {| Branch := "done"; MergedSha := "B"; Merged := true;
                  SubjectScore := 1; DiffScore := 1; DiffSize := 0;
                  NumCommits := 0; DiffCmd := "" |}),
     {| CommitDiffCache := None;
        trace := [["git"; "merge-base"; "main"; "done"];
                  ["git"; "rev-parse"; "done"]];
        written := [] |}).
Proof.
  apply (findMerged_tip_is_base merged jw "main" "done" "B" initial);
    vm_compute; reflexivity.
Defined.

(** The fingerprints of the commits of the scenarios. *)
Definition fingerprint (sha subject : string) : CommitDiff :=
  {| Sha := sha;
     Subject := subject;
     Diff := removeGitShaFromGitDiff (diffOnly (plainCommit sha subject)) |}.

Definition topicDiff : string :=
  parserDiff "index 650fc525..aa3fa82c 100644" "@@ -1 +1,4 @@".

Lemma squash_merge_detected_witness :
  exists v,
    fst (findMerged squashed jw "main" "topic" initial) = Ret (Some v)
    /\ Merged v = false
    /\ (DiffScore v == 1)%Q
    /\ NumCommits v = 3%Z.
Proof.
  destruct (squash_merge_detected squashed jw "main" "topic" initial
              "A" "F3" "F3" ["F2"; "F1"] (fingerprint "F3" "add emitter")
              topicDiff ["M"] [fingerprint "M" "add parser (#12)"]
              (fingerprint "M" "add parser (#12)"))
    as (v & H1 & H2 & H3 & H4 & _).
  - apply cache_ok_initial.
  - vm_compute. reflexivity.
  - vm_compute. reflexivity.
  - discriminate.
  - vm_compute. reflexivity.
  - discriminate.
  - vm_compute. reflexivity.
  - vm_compute. reflexivity.
  - discriminate.
  - vm_compute. reflexivity.
  - vm_compute. reflexivity.
  - exists [], []. repeat apply conj; try constructor.
  - vm_compute. reflexivity.
  - vm_compute. reflexivity.
  - exists v. repeat split; assumption.
Defined.

(** C1, as stated, fails: [topic] has three commits and its combined
    diff is, byte for byte, the combined diff of the trunk commit [M];
    the subject of [M] shares nothing with the subject of [F3], so no
    trunk commit is selected and there is no verdict. *)
Lemma squash_under_other_subject_undetected :
  commitsBetween squashedRenamed "A" "topic" = Ret ["F3"; "F2"; "F1"]
  /\ commitsBetween squashedRenamed "A" "main" = Ret ["M"]
  /\ combinedDiff squashedRenamed "A" "topic" = combinedDiff squashedRenamed "M^" "M"
  /\ combinedDiff squashedRenamed "A" "topic" = Ret topicDiff
  /\ fst (findMerged squashedRenamed jw "main" "topic" initial) = Ret None.
Proof. repeat apply conj; vm_compute; reflexivity. Qed.

Definition laterDiff : string :=
  parserDiff "index 7c7c7c7c..8d8d8d8d 100644" "@@ -3 +3,4 @@".

(** The combined diffs are compared as [git diff] prints them: on
    [squashedLater] they differ in blob hashes and line numbers only,
    their normalized forms are equal, and the diff score is not 1.0. *)
Lemma squash_diffs_compared_as_printed :
  combinedDiff squashedLater "A" "topic" = Ret topicDiff
  /\ combinedDiff squashedLater "M^" "M" = Ret laterDiff
  /\ removeGitShaFromGitDiff topicDiff = removeGitShaFromGitDiff laterDiff
  /\ fst (findMerged squashedLater jw "main" "topic" initial)
     = Ret (Some {| Branch := "topic"; MergedSha := "F3"; Merged := false;
                    SubjectScore := 991 # 1320;
                    DiffScore := 101 # 110;
                    DiffSize := len laterDiff;
                    NumCommits := 3;
                    DiffCmd := "meld <(git --no-pager diff A..topic) <(git --no-pager diff M^..M)" |})
  /\ jw laterDiff topicDiff (1 # 10) = 101 # 110.
Proof. repeat apply conj; vm_compute; reflexivity. Qed.

(** C5, as stated, fails: the new commits of [topic] are [F1], [F2],
    [F3], earliest first; [git log] lists them latest first, and the
    representative is [F3]: the verdict carries the sha of [F3] and the
    similarity of the subject of [F3], not of [F1], to the subject of
    [M]. *)
Lemma representative_is_not_earliest :
  commitsBetween squashed "A" "topic" = Ret (rev ["F1"; "F2"; "F3"])
  /\ fingerprintOf squashed "F1" = Ret (fingerprint "F1" "start the parser")
  /\ fingerprintOf squashed "F3" = Ret (fingerprint "F3" "add emitter")
  /\ fst (findMerged squashed jw "main" "topic" initial)
     = Ret (Some {| Branch := "topic"; MergedSha := "F3"; Merged := false;
                    SubjectScore := jw "add emitter" "add parser (#12)" (1 # 10);
                    DiffScore := 1;
                    DiffSize := 176;
                    NumCommits := 3;
                    DiffCmd := "meld <(git --no-pager diff A..topic) <(git --no-pager diff M^..M)" |})
  /\ jw "add emitter" "add parser (#12)" (1 # 10)
     <> jw "start the parser" "add parser (#12)" (1 # 10).
Proof.
  repeat apply conj; try (vm_compute; reflexivity). vm_compute. discriminate.
Qed.

Lemma representative_is_latest_witness :
  let v := {| Branch := "topic"; MergedSha := "F3"; Merged := false;
              SubjectScore := 991 # 1320; DiffScore := 1; DiffSize := 176;
              NumCommits := 3;
              DiffCmd := "meld <(git --no-pager diff A..topic) <(git --no-pager diff M^..M)" |} in
  fst (findMerged squashed jw "main" "topic" initial) = Ret (Some v)
  /\ Merged v = false
  /\ MergedSha v = "F3"
  /\ exists commits trunk best,
       commitsBetween squashed "A" "main" = Ret commits
       /\ mapO (fingerprintOf squashed) commits = Ret trunk
       /\ In best trunk
       /\ SubjectScore v = jw "add emitter" (Subject best) (1 # 10).
Proof.
  assert (E : fst (findMerged squashed jw "main" "topic" initial)
              = Ret (Some {| Branch := "topic"; MergedSha := "F3"; Merged := false;
                             SubjectScore := 991 # 1320; DiffScore := 1;
                             DiffSize := 176; NumCommits := 3;
                             DiffCmd := "meld <(git --no-pager diff A..topic) <(git --no-pager diff M^..M)" |}))
    by (vm_compute; reflexivity).
  split; [exact E|].
  apply (representative_is_latest squashed jw "main" "topic" initial
           "A" "F3" ["F1"; "F2"; "F3"] "F3" (fingerprint "F3" "add emitter")).
  - apply cache_ok_initial.
  - vm_compute. reflexivity.
  - vm_compute. reflexivity.
  - discriminate.
  - vm_compute. reflexivity.
  - reflexivity.
  - vm_compute. reflexivity.
  - exact E.
Defined.

(** C8, as stated, fails: trunk has the commit [T] since the merge
    base, it is fingerprinted and compared, and there is no verdict. *)
Lemma compared_yet_no_verdict :
  commitsBetween unrelated "A" "main" = Ret ["T"]
  /\ fingerprintOf unrelated "T" = Ret (fingerprint "T" "xyz")
  /\ jw "abc" "xyz" (1 # 10) = 0%Q
  /\ fst (findMerged unrelated jw "main" "exp" initial) = Ret None
  /\ trace (snd (findMerged unrelated jw "main" "exp" initial))
     = [["git"; "merge-base"; "main"; "exp"];
        ["git"; "rev-parse"; "exp"];
        ["git"; "log"; "--format=format:%H"; "A..exp"];
        showCmd "E"; subjectCmd "E";
        ["git"; "log"; "--format=format:%H"; "A..main"];
        showCmd "T"; subjectCmd "T"].
Proof. repeat apply conj; vm_compute; reflexivity. Qed.

Lemma no_verdict_iff_no_similar_subject_witness :
  (fst (findMerged unrelated jw "main" "exp" initial) = Ret None
   <-> Forall (fun fp => (score jw "abc" fp <= 0)%Q) [fingerprint "T" "xyz"])
  /\ (["T"] = [] -> fst (findMerged unrelated jw "main" "exp" initial) = Ret None)
  /\ (@nil string = [] ->
      Exists (fun fp => (0 < score jw "abc" fp)%Q) [fingerprint "T" "xyz"] ->
      exists v, fst (findMerged unrelated jw "main" "exp" initial) = Ret (Some v)
                /\ Merged v = false).
Proof.
  apply (no_verdict_iff_no_similar_subject unrelated jw "main" "exp" initial
           "A" "E" "E" [] (fingerprint "E" "abc") "" ["T"] [fingerprint "T" "xyz"]).
  - apply cache_ok_initial.
  - vm_compute. reflexivity.
  - vm_compute. reflexivity.
  - discriminate.
  - vm_compute. reflexivity.
  - vm_compute. reflexivity.
  - congruence.
  - vm_compute. reflexivity.
  - vm_compute. reflexivity.
Defined.

Lemma empty_combined_diff_panics_witness :
  fst (findMerged reverted jw "main" "wip" initial)
  = Panicked "expected single commit".
Proof.
  apply (empty_combined_diff_panics reverted jw "main" "wip" initial
           "A" "R2" "R2" ["R1"] (fingerprint "R2" "Revert try")
           ["B"] [fingerprint "B" "Release"]).
  - apply cache_ok_initial.
  - vm_compute. reflexivity.
  - vm_compute. reflexivity.
  - discriminate.
  - vm_compute. reflexivity.
  - discriminate.
  - vm_compute. reflexivity.
  - vm_compute. reflexivity.
  - vm_compute. reflexivity.
  - vm_compute. reflexivity.
  - constructor. vm_compute. reflexivity.
Defined.

Lemma fingerprint_cache_witness :
  (forall sha,
     is_Some (cached (snd (main rebased jw defaults initial)) sha) ->
     (runs (showCmd sha) (trace (snd (main rebased jw defaults initial))) <= 1)%nat
     /\ (runs (subjectCmd sha) (trace (snd (main rebased jw defaults initial))) <= 1)%nat)
  /\ (forall sha cd w',
        fst (getCommitDiff rebased sha (snd (main rebased jw defaults initial))) = Ret cd ->
        reached rebased jw
          (snd (getCommitDiff rebased sha (snd (main rebased jw defaults initial)))) w' ->
        getCommitDiff rebased sha w' = (Ret cd, w')).
Proof.
  apply (fingerprint_cache rebased jw (snd (main rebased jw defaults initial))).
  apply (reached_step rebased jw initial initial); [apply reached_refl|].
  apply step_main.
Defined.

(** The run of [main] behind the witness: four commits fingerprinted,
    each shown once, and the cached fingerprint of [C2] returned again
    without a process being started. *)
Example rebased_run_shows_each_commit_once :
  let w := snd (main rebased jw defaults initial) in
  map (fun sha => runs (showCmd sha) (trace w)) ["D"; "C2"; "C"; "B"; "A"]
  = [1; 1; 1; 1; 0]%nat
  /\ map (fun sha => runs (subjectCmd sha) (trace w)) ["D"; "C2"; "C"; "B"; "A"]
     = [1; 1; 1; 1; 0]%nat
  /\ trace (snd (getCommitDiff rebased "C2" w)) = trace w
  /\ fst (getCommitDiff rebased "C2" w) = fingerprintOf rebased "C2".
Proof. repeat apply conj; vm_compute; reflexivity. Qed.

End Examples.

(* ===================================================================== *)
(** ** More on the diff normalizer *)
(* ===================================================================== *)

(** Every byte of [s] is in the class. *)
Fixpoint allb (cls : ascii -> bool) (s : string) : bool :=
  match s with
  | EmptyString => true
  | String c s' => cls c && allb cls s'
  end.

Lemma strip_prefix_append p s : strip_prefix p (p +:+ s) = Some s.
Proof.
  induction p as [|a p IH]; [reflexivity|].
  rewrite append_cons. simpl. rewrite Ascii.eqb_refl. exact IH.
Qed.

Lemma rep_append cls t : forall n s,
  String.length t = n -> allb cls t = true -> rep n cls (t +:+ s) = Some s.
Proof.
  induction t as [|c t IH]; intros n s <- H; [reflexivity|].
  apply andb_prop in H as [Hc Ht]. rewrite append_cons. simpl.
  rewrite Hc. apply IH; [reflexivity|exact Ht].
Qed.

Lemma substring_all s : String.substring 0 (String.length s) s = s.
Proof. induction s as [|c s IH]; [reflexivity|]. simpl. rewrite IH. reflexivity. Qed.

Lemma star_skip {R} cls (k : string -> option R) r : forall s x,
  allb cls r = true -> star cls k s = Some x -> star cls k (r +:+ s) = Some x.
Proof.
  induction r as [|c r IH]; intros s x H Hs; [exact Hs|].
  apply andb_prop in H as [Hc Hr]. rewrite append_cons. simpl.
  rewrite Hc, (IH _ _ Hr Hs). reflexivity.
Qed.

Lemma Join_cons_byte c x xs sep :
  Join (String c x :: xs) sep = String c (Join (x :: xs) sep).
Proof. destruct xs; reflexivity. Qed.

(** [Join] undoes [Split]. *)
Lemma Join_Split s : Join (Split s newline) nl = s.
Proof.
  induction s as [|c s IH]; [reflexivity|]. simpl.
  pose proof (Split_nonempty s newline) as Hne.
  destruct (Ascii.eqb c newline) eqn:E.
  - apply Ascii.eqb_eq in E as ->.
    destruct (Split s newline) as [|x xs]; [congruence|].
    change (Join ("" :: x :: xs) nl) with ("" +:+ nl +:+ Join (x :: xs) nl).
    rewrite IH. reflexivity.
  - destruct (Split s newline) as [|x xs]; [congruence|].
    rewrite Join_cons_byte, IH. reflexivity.
Qed.

(** A line that starts neither with [index ] nor with [@@ ] is left as
    it is. *)
Lemma normalizeLine_other l :
  strip_prefix "index " l = None -> strip_prefix "@@ " l = None ->
  normalizeLine l = l.
Proof.
  intros Hi Hh.
  assert (F : forall p re, strip_prefix p l = None ->
                run (Lit p :: re) None None l = None).
  { intros p re Hp. cbn [run]. rewrite Hp. reflexivity. }
  unfold normalizeLine, ReplaceAllString.
  unfold indexRegxp, indexRegxpNewFile, indexRegxpDeleteFile, changeLocation.
  repeat (rewrite (F "index " _ Hi) || rewrite (F "@@ " _ Hh)). reflexivity.
Qed.

(** X1: a diff none of whose lines starts with [index ] or [@@ ] (file
    headers, added, removed and context lines) comes out unchanged, with
    one line feed appended. *)
Theorem other_lines_pass_unchanged d :
  Forall (fun l => strip_prefix "index " l = None /\ strip_prefix "@@ " l = None)
    (Split d newline) ->
  removeGitShaFromGitDiff d = d +:+ nl.
Proof.
  intros H. unfold removeGitShaFromGitDiff.
  replace (map normalizeLine (Split d newline)) with (Split d newline).
  - rewrite Join_Split. reflexivity.
  - induction H as [|l ls [Hi Hh] _ IH]; [reflexivity|].
    simpl. rewrite (normalizeLine_other l Hi Hh), <- IH. reflexivity.
Qed.

Lemma other_lines_pass_unchanged_witness :
  let d := "--- a/login.go" +:+ nl +:+ "+++ b/login.go" +:+ nl
           +:+ " check()" +:+ nl +:+ "+audit()" in
  removeGitShaFromGitDiff d = d +:+ nl.
Proof.
  apply (other_lines_pass_unchanged
           ("--- a/login.go" +:+ nl +:+ "+++ b/login.go" +:+ nl
            +:+ " check()" +:+ nl +:+ "+audit()")).
  vm_compute. repeat constructor.
Defined.

(** X2: an index line with two blob hashes of eight hex digits and a
    mode of six digits keeps its mode and loses its hashes: two such
    lines with the same mode normalize to the same line. *)
Theorem index_hashes_erased h1 h2 mode :
  String.length h1 = 8%nat -> allb hex h1 = true ->
  String.length h2 = 8%nat -> allb hex h2 = true ->
  String.length mode = 6%nat -> allb digit mode = true ->
  normalizeLine ("index " +:+ h1 +:+ ".." +:+ h2 +:+ " " +:+ mode)
  = "index zzzzzzzz..zzzzzzzz " +:+ mode.
Proof.
  intros L1 H1 L2 H2 Lm Hm.
  assert (E : ReplaceAllString indexRegxp
                ("index " +:+ h1 +:+ ".." +:+ h2 +:+ " " +:+ mode)
                [Text "index zzzzzzzz..zzzzzzzz "; Group1]
              = "index zzzzzzzz..zzzzzzzz " +:+ mode).
  { unfold ReplaceAllString, indexRegxp. cbn [run].
    rewrite strip_prefix_append, (rep_append hex h1 8 _ L1 H1).
    rewrite strip_prefix_append, (rep_append hex h2 8 _ L2 H2).
    rewrite strip_prefix_append.
    rewrite <- (append_empty_r mode) at 1.
    rewrite (rep_append digit mode 6 _ Lm Hm).
    unfold consumed. rewrite append_empty_r. simpl String.length.
    rewrite Nat.sub_0_r, substring_all. simpl expand.
    rewrite !append_empty_r. reflexivity. }
  unfold normalizeLine. rewrite E. vm_compute. reflexivity.
Qed.

Lemma index_hashes_erased_witness :
  normalizeLine ("index " +:+ "650fc525" +:+ ".." +:+ "aa3fa82c" +:+ " " +:+ "100644")
  = "index zzzzzzzz..zzzzzzzz " +:+ "100644".
Proof.
  apply (index_hashes_erased "650fc525" "aa3fa82c" "100644"); reflexivity.
Defined.

(** X3: a hunk header loses its line numbers, whatever they are, and
    keeps the text after the second [@@]. *)
Theorem hunk_header_collapsed range context :
  allb notAt range = true ->
  normalizeLine ("@@ " +:+ range +:+ " @@" +:+ context)
  = "@@ ... @@" +:+ context.
Proof.
  intros H.
  assert (E : ReplaceAllString changeLocation
                ("@@ " +:+ range +:+ " @@" +:+ context) [Text "@@ ... @@"]
              = "@@ ... @@" +:+ context).
  { unfold ReplaceAllString, changeLocation. cbn [run].
    rewrite strip_prefix_append.
    rewrite (star_skip notAt _ range (" @@" +:+ context) (None, context) H);
      reflexivity. }
  unfold normalizeLine.
  replace (ReplaceAllString indexRegxpDeleteFile _ _)
    with ("@@ " +:+ range +:+ " @@" +:+ context); [exact E|].
  vm_compute. reflexivity.
Qed.

Lemma hunk_header_collapsed_witness :
  normalizeLine ("@@ " +:+ "-6,6 +6,7" +:+ " @@" +:+ " func login() {")
  = "@@ ... @@" +:+ " func login() {".
Proof. apply (hunk_header_collapsed "-6,6 +6,7" " func login() {"). reflexivity. Defined.

(* ===================================================================== *)
(** ** The git queries: what they make of the output of git *)
(* ===================================================================== *)

(** A non-empty text without a white-space byte: a sha, a ref name. *)
Definition isWord (s : string) : bool :=
  match s with
  | EmptyString => false
  | String _ _ => allb (fun c => negb (isSpace c)) s
  end.

Lemma TrimLeft_spaces w : allb isSpace w = true -> TrimLeft w = "".
Proof.
  induction w as [|c w IH]; [reflexivity|]. simpl.
  intros [Hc Hw]%andb_prop. rewrite Hc. apply IH, Hw.
Qed.

Lemma TrimRight_spaces w : allb isSpace w = true -> TrimRight w = "".
Proof.
  induction w as [|c w IH]; [reflexivity|]. simpl.
  intros [Hc Hw]%andb_prop. rewrite (IH Hw), Hc. reflexivity.
Qed.

Lemma TrimRight_pad s w : allb isSpace w = true -> TrimRight (s +:+ w) = TrimRight s.
Proof.
  intros Hw. induction s as [|c s IH].
  - rewrite append_empty_l. apply TrimRight_spaces, Hw.
  - rewrite append_cons. simpl. rewrite IH. reflexivity.
Qed.

Lemma TrimRight_solid s :
  allb (fun c => negb (isSpace c)) s = true -> TrimRight s = s.
Proof.
  induction s as [|c s IH]; [reflexivity|]. simpl.
  intros [Hc Hs]%andb_prop. rewrite (IH Hs).
  destruct s; [|reflexivity]. apply negb_true_iff in Hc. rewrite Hc. reflexivity.
Qed.

Lemma TrimRight_before a : forall b,
  TrimRight b <> "" -> TrimRight (a +:+ b) = a +:+ TrimRight b.
Proof.
  induction a as [|c a IH]; intros b Hb; [reflexivity|].
  rewrite !append_cons. simpl. rewrite (IH _ Hb).
  destruct (a +:+ TrimRight b) eqn:E; [|reflexivity].
  exfalso. destruct a; [|discriminate]. rewrite append_empty_l in E. exact (Hb E).
Qed.

Lemma TrimLeft_word s : isWord s = true -> TrimLeft s = s.
Proof.
  destruct s as [|c s]; [discriminate|]. simpl.
  intros [Hc _]%andb_prop. apply negb_true_iff in Hc. rewrite Hc. reflexivity.
Qed.

Lemma isWord_solid s : isWord s = true -> allb (fun c => negb (isSpace c)) s = true.
Proof. destruct s; [discriminate|]. intros H. exact H. Qed.

Lemma TrimSpace_word s : isWord s = true -> TrimSpace s = s.
Proof.
  intros H. unfold TrimSpace. rewrite (TrimLeft_word _ H).
  apply TrimRight_solid, isWord_solid, H.
Qed.

Lemma isWord_oneline s : isWord s = true -> oneline s = true.
Proof.
  intros H%isWord_solid. induction s as [|c s IH]; [reflexivity|].
  apply andb_prop in H as [Hc Hs]. simpl. rewrite (IH Hs), andb_true_r.
  unfold dot. destruct (Ascii.eqb c newline) eqn:E; [|reflexivity].
  apply Ascii.eqb_eq in E as ->. discriminate.
Qed.


(** Words joined by line feeds are not touched by [TrimSpace], but for
    the white space after the last one. *)
Lemma TrimSpace_words ls pad :
  Forall (fun l => isWord l = true) ls -> allb isSpace pad = true ->
  TrimSpace (Join ls nl +:+ pad) = Join ls nl.
Proof.
  intros Hls Hpad. unfold TrimSpace.
  assert (R : TrimRight (Join ls nl) = Join ls nl).
  { induction Hls as [|x ls Hx Hls IH]; [reflexivity|].
    destruct ls as [|y ls]; [apply TrimRight_solid, isWord_solid, Hx|].
    change (Join (x :: y :: ls) nl) with (x +:+ (nl +:+ Join (y :: ls) nl)).
    assert (N : Join (y :: ls) nl <> "").
    { inversion Hls as [|? ? Hy _]; subst. destruct y; [discriminate|].
      rewrite Join_cons_byte. discriminate. }
    assert (S1 : TrimRight (nl +:+ Join (y :: ls) nl) = nl +:+ Join (y :: ls) nl).
    { rewrite TrimRight_before; rewrite IH; [reflexivity|exact N]. }
    rewrite TrimRight_before; rewrite S1; [reflexivity|discriminate]. }
  destruct Hls as [|x ls Hx Hls].
  - simpl. rewrite append_empty_l, (TrimLeft_spaces _ Hpad). reflexivity.
  - assert (L : TrimLeft (Join (x :: ls) nl +:+ pad) = Join (x :: ls) nl +:+ pad).
    { destruct x as [|c x]; [discriminate|].
      rewrite Join_cons_byte, append_cons. simpl in *.
      apply andb_prop in Hx as [Hc _]. apply negb_true_iff in Hc.
      rewrite Hc. reflexivity. }
    rewrite L, (TrimRight_pad _ _ Hpad). exact R.
Qed.

Lemma filter_words (ls : list string) :
  Forall (fun l => isWord l = true) ls ->
  filter (fun l => l ≠ "") ls = ls.
Proof.
  induction 1 as [|x ls Hx _ IH]; [reflexivity|].
  rewrite filter_cons, IH. destruct (decide (x ≠ "")) as [|N]; [reflexivity|].
  exfalso. apply N. intros ->. discriminate.
Qed.

(** The lines of an output that lists words, one per line. *)
Lemma linesOf_words ls pad :
  Forall (fun l => isWord l = true) ls -> allb isSpace pad = true ->
  linesOf (TrimSpace (Join ls nl +:+ pad)) = ls.
Proof.
  intros Hls Hpad. rewrite (TrimSpace_words _ _ Hls Hpad). unfold linesOf.
  destruct ls as [|x ls]; [reflexivity|].
  rewrite Split_Join; [|discriminate|].
  - replace (map TrimSpace (x :: ls)) with (x :: ls); [apply filter_words, Hls|].
    clear Hpad. induction Hls as [|y l Hy _ IH]; [reflexivity|].
    simpl. rewrite (TrimSpace_word _ Hy), <- IH. reflexivity.
  - eapply Forall_impl; [exact Hls|]. intros l. apply isWord_oneline.
Qed.

Section Adapter.

Variable git : list string -> cmd_result.

(** X4: when [git log] prints shas one per line, followed by any white
    space, [getCommits] returns exactly these shas in the order printed,
    having started that one process; a blank output gives the empty
    list. *)
Theorem getCommits_lists_log_lines start end_ commits pad w :
  git ["git"; "log"; "--format=format:%H"; start +:+ ".." +:+ end_]
  = Stdout (Join commits nl +:+ pad) ->
  Forall (fun c => isWord c = true) commits ->
  allb isSpace pad = true ->
  getCommits git start end_ w
  = (Ret commits,
     started w ["git"; "log"; "--format=format:%H"; start +:+ ".." +:+ end_]).
Proof.
  intros Hg Hc Hp. rewrite getCommits_eq. f_equal.
  unfold commitsBetween, query. rewrite Hg. simpl.
  rewrite (linesOf_words _ _ Hc Hp). reflexivity.
Qed.






End Adapter.

(* ===================================================================== *)
(** ** More on the cache and the detector *)
(* ===================================================================== *)

(** The command lines that read the repository. *)
Inductive query_cmd : list string -> Prop :=
  | query_merge_base a b : query_cmd ["git"; "merge-base"; a; b]
  | query_rev_parse s : query_cmd ["git"; "rev-parse"; s]
  | query_log range : query_cmd ["git"; "log"; "--format=format:%H"; range]
  | query_show sha : query_cmd (showCmd sha)
  | query_subject sha : query_cmd (subjectCmd sha)
  | query_diff range : query_cmd ["git"; "--no-pager"; "diff"; range].

Section Detector2.

Variable git : list string -> cmd_result.
Variable JaroWinklerDistance : string -> string -> Q -> Q.

(** [m] writes nothing and starts only queries. *)
Definition only_queries {A} (m : M A) : Prop :=
  forall w,
    written (snd (m w)) = written w
    /\ exists t, trace (snd (m w)) = trace w ++ t /\ Forall query_cmd t.

Lemma only_queries_ret {A} (a : A) : only_queries (ret a).
Proof. intros w. split; [reflexivity|]. exists []. rewrite app_nil_r. split; [reflexivity|constructor]. Qed.

Lemma only_queries_panic {A} msg : only_queries (@panic A msg).
Proof. intros w. split; [reflexivity|]. exists []. rewrite app_nil_r. split; [reflexivity|constructor]. Qed.

Lemma only_queries_bind {A B} (m : M A) (k : A -> M B) :
  only_queries m -> (forall a, only_queries (k a)) -> only_queries (bind m k).
Proof.
  intros Hm Hk w. unfold bind. destruct (Hm w) as (W1 & t1 & T1 & F1).
  destruct (m w) as [[a|e|p|c] w']; simpl in *; try (split; [exact W1|eauto]).
  destruct (Hk a w') as (W2 & t2 & T2 & F2).
  split; [congruence|]. exists (t1 ++ t2).
  rewrite T2, T1, app_assoc. split; [reflexivity|apply Forall_app; split; assumption].
Qed.

Lemma only_queries_started {A} (r : outcome A) w args :
  query_cmd args ->
  written (snd (r, started w args)) = written w
  /\ exists t, trace (snd (r, started w args)) = trace w ++ t /\ Forall query_cmd t.
Proof.
  intros H. split; [reflexivity|]. exists [args].
  split; [reflexivity|repeat constructor; exact H].
Qed.

Lemma only_queries_query args :
  args <> [] -> query_cmd args -> only_queries (runCommandTrimmedOutput git args).
Proof.
  intros Hne H w. rewrite runCommandTrimmedOutput_eq by exact Hne.
  apply only_queries_started, H.
Qed.

Lemma only_queries_getCommits a b : only_queries (getCommits git a b).
Proof. intros w. rewrite getCommits_eq. apply only_queries_started. constructor. Qed.

Lemma only_queries_getCommitDiff sha : only_queries (getCommitDiff git sha).
Proof.
  intros w. destruct (cached w sha) as [cd|] eqn:E.
  - rewrite (getCommitDiff_hit git _ _ _ E). apply only_queries_ret.
  - rewrite (getCommitDiff_miss git _ _ E).
    destruct (git (showCmd sha)).
    + destruct (git (subjectCmd sha)); (split; [reflexivity|]);
        exists [showCmd sha; subjectCmd sha]; simpl;
        rewrite <- app_assoc; (split; [reflexivity|repeat constructor]).
    + split; [reflexivity|]. exists [showCmd sha].
      split; [reflexivity|repeat constructor].
Qed.

Lemma only_queries_scanTrunk branchDiff combined commits : forall h,
  only_queries (scanTrunk git JaroWinklerDistance branchDiff combined commits h).
Proof.
  induction commits as [|c commits IH]; intros h; [apply only_queries_ret|].
  simpl. apply only_queries_bind; [apply only_queries_getCommitDiff|].
  intros cd. apply IH.
Qed.

Lemma only_queries_findMerged currentBranch branch :
  only_queries (findMerged git JaroWinklerDistance currentBranch branch).
Proof.
  unfold findMerged, getGitMergeBase, getGitRevParse, getGitDiff.
  apply only_queries_bind; [apply only_queries_query; [discriminate|constructor]|].
  intros base.
  apply only_queries_bind; [apply only_queries_query; [discriminate|constructor]|].
  intros tip. destruct (decide (base = tip)); [apply only_queries_ret|].
  apply only_queries_bind; [apply only_queries_getCommits|].
  intros [|commit0 rest]; [apply only_queries_panic|].
  apply only_queries_bind; [apply only_queries_getCommitDiff|]. intros bd.
  apply only_queries_bind.
  { destruct (1 <? length (commit0 :: rest))%nat;
      [apply only_queries_query; [discriminate|constructor]|apply only_queries_ret]. }
  intros combined.
  apply only_queries_bind; [apply only_queries_getCommits|]. intros commits.
  apply only_queries_bind; [apply only_queries_scanTrunk|]. intros h.
  destruct (highestDiff h) as [best|]; [|apply only_queries_ret].
  destruct (decide (highestCombinedDiff h = "")).
  - destruct (decide (length (commit0 :: rest) = 1%nat));
      [apply only_queries_ret|apply only_queries_panic].
  - apply only_queries_bind;
      [apply only_queries_query; [discriminate|constructor]|].
    intros d. apply only_queries_ret.
Qed.

(** X10: whatever the repository and the state, [findMerged] writes
    nothing and only starts queries (merge-base, rev-parse, log, show,
    diff): it never starts [git branch -D]. *)
Theorem findMerged_only_reads currentBranch branch w :
  let w' := snd (findMerged git JaroWinklerDistance currentBranch branch w) in
  written w' = written w
  /\ exists t,
       trace w' = trace w ++ t
       /\ Forall query_cmd t
       /\ forall name, ~ In ["git"; "branch"; "-D"; name] t.
Proof.
  destruct (only_queries_findMerged currentBranch branch w) as (W & t & T & F).
  split; [exact W|]. exists t. split; [exact T|]. split; [exact F|].
  intros name Hin. rewrite Forall_forall in F.
  apply list_elem_of_In, F in Hin. inversion Hin.
Qed.


(** X8: a lookup that fails stores nothing: every cache entry is as it
    was, the commit is still not cached, and [git show] was started once
    more, so the next lookup asks git again. *)
Theorem failed_lookup_not_cached sha err w :
  fst (getCommitDiff git sha w) = Error err ->
  let w' := snd (getCommitDiff git sha w) in
  (forall sha', cached w' sha' = cached w sha')
  /\ cached w' sha = None
  /\ runs (showCmd sha) (trace w') = S (runs (showCmd sha) (trace w)).
Proof.
  destruct (cached w sha) as [cd|] eqn:E.
  { rewrite (getCommitDiff_hit git _ _ _ E). discriminate. }
  rewrite (getCommitDiff_miss git _ _ E).
  destruct (git (showCmd sha)).
  - destruct (git (subjectCmd sha)); [discriminate|]. intros _. simpl.
    split; [reflexivity|]. split; [exact E|].
    rewrite runs_snoc_ne, runs_snoc_eq; [reflexivity|].
    intros H. symmetry in H. revert H. apply showCmd_subjectCmd.
  - intros _. simpl. split; [reflexivity|]. split; [exact E|]. apply runs_snoc_eq.
Qed.

(** X9: in every state of a run, a cache entry is the fingerprint of
    the commit it is stored under, as computed from the repository; and
    no later state of the run has lost or replaced it. *)
Theorem cache_sound_and_growing w :
  reached git JaroWinklerDistance initial w ->
  (forall sha cd, cached w sha = Some cd ->
     fingerprintOf git sha = Ret cd /\ Sha cd = sha)
  /\ (forall w' sha cd,
        reached git JaroWinklerDistance w w' ->
        cached w sha = Some cd -> cached w' sha = Some cd).
Proof.
  intros Hr.
  destruct (preserves_reached git JaroWinklerDistance _ _ Hr (cache_ok_initial git))
    as [Hok _].
  split.
  - intros sha cd Hc. specialize (Hok sha). rewrite Hc in Hok.
    destruct Hok as (F & _). split; [exact F|].
    apply (fingerprintOf_Sha git _ _ F).
  - intros w' sha cd Hr' Hc.
    destruct (preserves_reached git JaroWinklerDistance _ _ Hr' Hok) as [_ Hle].
    apply Hle, Hc.
Qed.

(** X16: the loop over the trunk commits keeps the first commit of
    highest subject similarity, provided that similarity is positive:
    a later commit with the same similarity does not replace it. *)
Theorem scanTrunk_keeps_first_best branchDiff combined commits trunk best w :
  cache_ok git w ->
  mapO (fingerprintOf git) commits = Ret trunk ->
  firstBest JaroWinklerDistance (Subject branchDiff) trunk best ->
  fst (scanTrunk git JaroWinklerDistance branchDiff combined commits
         {| highestSubjectScore := 0; highestDiff := None; highestCombinedDiff := "" |} w)
  = Ret {| highestSubjectScore :=
             JaroWinklerDistance (Subject branchDiff) (Subject best) (1 # 10);
           highestDiff := Some best;
           highestCombinedDiff := combined |}.
Proof.
  intros Hw Htr Hb.
  pose proof (proj2 (refines_scanTrunk git JaroWinklerDistance branchDiff combined
                       commits nothingYet) w Hw) as R.
  change (fst (scanTrunk git JaroWinklerDistance branchDiff combined commits
                 nothingYet w) = Ret {| highestSubjectScore :=
             JaroWinklerDistance (Subject branchDiff) (Subject best) (1 # 10);
           highestDiff := Some best;
           highestCombinedDiff := combined |}).
  rewrite R, Htr. simpl. rewrite (bestMatch_firstBest _ _ _ _ _ Hb). reflexivity.
Qed.

(** X17: a branch with one commit, on a trunk where [best] is the first
    commit of highest positive subject similarity: the verdict compares
    the two normalized commit diffs, sizes the branch's, counts one
    commit, and its diff command names [best]. *)
Theorem single_commit_verdict currentBranch branch w base tip commit branchDiff
    commits trunk best :
  cache_ok git w ->
  mergeBase git currentBranch branch = Ret base ->
  revParse git branch = Ret tip ->
  base <> tip ->
  commitsBetween git base branch = Ret [commit] ->
  fingerprintOf git commit = Ret branchDiff ->
  commitsBetween git base currentBranch = Ret commits ->
  mapO (fingerprintOf git) commits = Ret trunk ->
  firstBest JaroWinklerDistance (Subject branchDiff) trunk best ->
  fst (findMerged git JaroWinklerDistance currentBranch branch w)
  = Ret (Some {| Branch := branch;
                 MergedSha := commit;
                 Merged := false;
                 SubjectScore :=
                   JaroWinklerDistance (Subject branchDiff) (Subject best) (1 # 10);
                 DiffScore :=
                   JaroWinklerDistance (Diff branchDiff) (Diff best) (1 # 10);
                 DiffSize := len (Diff branchDiff);
                 NumCommits := 1;
                 DiffCmd := "meld <(git show " +:+ branch
                            +:+ ") <(git show " +:+ Sha best +:+ ")" |}).
Proof.
  intros Hw Hb Ht Hne Hc Hf Hcs Htr Hbest.
  rewrite (findMerged_detectMerge _ _ _ _ _ Hw).
  rewrite (detectMerge_diverged _ _ _ _ _ _ _ _ _ _ _ Hb Ht Hne Hc Hf Hcs Htr).
  simpl bindO. unfold verdict.
  rewrite (bestMatch_firstBest _ _ _ _ _ Hbest). simpl.
  rewrite (fingerprintOf_Sha git _ _ Hf). reflexivity.
Qed.

(** X18: when the tip of the branch is not the merge base and [git log]
    lists no commit between them, [findMerged] panics; it has started
    the three queries and nothing else. *)
Theorem no_branch_commits_panics currentBranch branch w base tip :
  mergeBase git currentBranch branch = Ret base ->
  revParse git branch = Ret tip ->
  base <> tip ->
  commitsBetween git base branch = Ret [] ->
  findMerged git JaroWinklerDistance currentBranch branch w
  = (Panicked "branchCommits is empty, but if base == branchSha check didnt catch this",
     {| CommitDiffCache := CommitDiffCache w;
        trace := trace w ++ [["git"; "merge-base"; currentBranch; branch];
                             ["git"; "rev-parse"; branch];
                             ["git"; "log"; "--format=format:%H"; base +:+ ".." +:+ branch]];
        written := written w |}).
Proof.
  intros Hb Ht Hne Hc.
  unfold findMerged, bind, getGitMergeBase, getGitRevParse.
  rewrite runCommandTrimmedOutput_eq by discriminate.
  unfold mergeBase in Hb. rewrite Hb.
  rewrite runCommandTrimmedOutput_eq by discriminate.
  unfold revParse in Ht. rewrite Ht.
  destruct (decide (base = tip)); [contradiction|].
  rewrite getCommits_eq, Hc.
  unfold panic, started. simpl. rewrite <- !app_assoc. reflexivity.
Qed.

End Detector2.

(* ===================================================================== *)
(** ** More on the reporting loop *)
(* ===================================================================== *)

(** The state with more lines written. *)
Definition wrote (w : world) (ls : list line) : world :=
  {| CommitDiffCache := CommitDiffCache w;
     trace := trace w;
     written := written w ++ ls |}.

Lemma print_eq l w : print l w = (Ret tt, wrote w [l]).
Proof. reflexivity. Qed.

Lemma wrote_wrote w a b : wrote (wrote w a) b = wrote w (a ++ b).
Proof. unfold wrote. simpl. rewrite <- app_assoc. reflexivity. Qed.

Section Driver.

Variable git : list string -> cmd_result.
Variable JaroWinklerDistance : string -> string -> Q -> Q.

(** X12: the thresholds are strict: a fuzzy verdict whose subject score
    or diff score does not exceed its threshold leaves no trace at
    all, neither output nor process. *)
Theorem below_threshold_silent progOpts branch potentialMerged w :
  Merged potentialMerged = false ->
  (SubjectScore potentialMerged <= MinSubjectScore progOpts)%Q
  \/ (DiffScore potentialMerged <= MinDiffScore progOpts)%Q ->
  report git progOpts branch potentialMerged w = (Ret tt, w).
Proof.
  intros Hm H. unfold report. rewrite Hm.
  destruct H as [H|H]; apply Qgtb_false in H; rewrite H;
    [reflexivity|rewrite andb_false_r; reflexivity].
Qed.

(** X11: a fuzzy verdict whose diff score is not 1.0, or whose diff has
    at most 10 bytes, never has its branch deleted: [report] returns
    without having started a process. *)
Theorem imperfect_match_never_deleted progOpts branch potentialMerged w :
  Merged potentialMerged = false ->
  (DiffSize potentialMerged <= 10)%Z \/ ~ (DiffScore potentialMerged == 1)%Q ->
  fst (report git progOpts branch potentialMerged w) = Ret tt
  /\ trace (snd (report git progOpts branch potentialMerged w)) = trace w
  /\ CommitDiffCache (snd (report git progOpts branch potentialMerged w))
     = CommitDiffCache w.
Proof.
  intros Hm H. unfold report. rewrite Hm.
  destruct (Qgtb _ _ && Qgtb _ _); [|repeat split].
  assert (P : Qeq_bool (DiffScore potentialMerged) 1
              && (10 <? DiffSize potentialMerged)%Z = false).
  { destruct H as [H|H].
    - apply Z.ltb_ge in H. rewrite H. apply andb_false_r.
    - destruct (Qeq_bool (DiffScore potentialMerged) 1) eqn:E; [|reflexivity].
      apply Qeq_bool_iff in E. contradiction. }
  rewrite P. unfold bind. rewrite !print_eq.
  destruct (1 <? NumCommits potentialMerged)%Z; repeat split.
Qed.

(** X19: a fuzzy verdict above both thresholds with diff score 1.0 and
    a diff of more than 10 bytes has its branch deleted: one
    [git branch -D] is started and, when it succeeds, three lines are
    written. *)
Theorem perfect_match_deleted progOpts branch potentialMerged out w :
  Merged potentialMerged = false ->
  (MinSubjectScore progOpts < SubjectScore potentialMerged)%Q ->
  (MinDiffScore progOpts < DiffScore potentialMerged)%Q ->
  (DiffScore potentialMerged == 1)%Q ->
  (10 < DiffSize potentialMerged)%Z ->
  git ["git"; "branch"; "-D"; branch] = Stdout out ->
  report git progOpts branch potentialMerged w
  = (Ret tt,
     {| CommitDiffCache := CommitDiffCache w;
        trace := trace w ++ [["git"; "branch"; "-D"; branch]];
        written := written w
                   ++ [OutMerged branch (MergedSha potentialMerged)
                         (SubjectScore potentialMerged) (DiffScore potentialMerged);
                       OutDeleting branch;
                       OutBlank] |}).
Proof.
  intros Hm Hs Hd H1 Hz Hg. unfold report. rewrite Hm.
  apply Qgtb_true in Hs, Hd. rewrite Hs, Hd.
  apply Qeq_bool_iff in H1. apply Z.ltb_lt in Hz. rewrite H1, Hz. simpl.
  unfold deleteOrDie, deleteBranch, call, bind. rewrite !print_eq.
  rewrite Output_eq, Hg. simpl. unfold ret, print, started, wrote. simpl.
  rewrite <- !app_assoc. reflexivity.
Qed.

(** X15: when the [git branch -D] of a cleanly merged branch fails,
    the run ends with exit code 1 after the failure is written. *)
Theorem failed_delete_exits progOpts branch potentialMerged err w :
  Merged potentialMerged = true ->
  git ["git"; "branch"; "-D"; branch] = Failed err ->
  report git progOpts branch potentialMerged w
  = (Exited 1,
     {| CommitDiffCache := CommitDiffCache w;
        trace := trace w ++ [["git"; "branch"; "-D"; branch]];
        written := written w
                   ++ [OutCleanlyMerged branch (MergedSha potentialMerged);
                       OutDeleting branch;
                       ErrDie ("failed to delete branch " +:+ branch) err] |}).
Proof.
  intros Hm Hg. unfold report. rewrite Hm.
  unfold deleteOrDie, deleteBranch, call, die, bind. rewrite !print_eq.
  rewrite Output_eq, Hg. simpl. unfold exit, print, started, wrote. simpl.
  rewrite <- !app_assoc. reflexivity.
Qed.

(** X14: when [findMerged] returns an error for a branch, the loop
    writes one line naming the branch and the error, takes no other
    action for it, and goes on with the next branch. *)
Theorem detection_error_is_reported_and_skipped progOpts currentBranch branch
    branches err w :
  branch <> currentBranch ->
  fst (findMerged git JaroWinklerDistance currentBranch branch w) = Error err ->
  let w' := snd (findMerged git JaroWinklerDistance currentBranch branch w) in
  visit git JaroWinklerDistance progOpts currentBranch branch w
  = (Ret tt, wrote w' [ErrIgnoring branch err])
  /\ visitAll git JaroWinklerDistance progOpts currentBranch (branch :: branches) w
     = visitAll git JaroWinklerDistance progOpts currentBranch branches
         (wrote w' [ErrIgnoring branch err]).
Proof.
  intros Hne He.
  assert (V : visit git JaroWinklerDistance progOpts currentBranch branch w
              = (Ret tt,
                 wrote (snd (findMerged git JaroWinklerDistance currentBranch branch w))
                   [ErrIgnoring branch err])).
  { unfold visit. destruct (decide (branch = currentBranch)); [contradiction|].
    unfold bind at 1. unfold call.
    destruct (findMerged git JaroWinklerDistance currentBranch branch w) as [r w1].
    simpl in He. subst r. reflexivity. }
  split; [exact V|].
  simpl visitAll. unfold bind at 1. rewrite V. reflexivity.
Qed.

(** X13: when HEAD is on a branch other than [main], [master] and
    [trunk], [main] ends with exit code 1 after the two listing
    queries: no branch is examined. *)
Theorem main_refuses_other_branch progOpts refs head w :
  git ["git"; "for-each-ref"; "--format=%(refname)"; "refs/heads/"] = Stdout refs ->
  git ["git"; "symbolic-ref"; "HEAD"] = Stdout head ->
  let currentBranch := TrimPrefix (TrimSpace head) "refs/heads/" in
  currentBranch <> "main" -> currentBranch <> "master" -> currentBranch <> "trunk" ->
  main git JaroWinklerDistance progOpts w
  = (Exited 1,
     {| CommitDiffCache := CommitDiffCache w;
        trace := trace w ++ [["git"; "for-each-ref"; "--format=%(refname)"; "refs/heads/"];
                             ["git"; "symbolic-ref"; "HEAD"]];
        written := written w
                   ++ [ErrDie "current branch is %s; expected main, master, or trunk"
                         currentBranch] |}).
Proof.
  intros Hr Hh c Hm Hma Ht.
  unfold main, getBranches, getCurrentBranch, runCommandSplitLines, call, bind.
  rewrite runCommandTrimmedOutput_eq by discriminate. unfold query, branchPrefix.
  rewrite Hr. cbn [ret fst snd].
  rewrite runCommandTrimmedOutput_eq by discriminate. unfold query.
  rewrite Hh. cbn [ret fst snd]. fold c.
  rewrite !bool_decide_eq_false_2 by assumption. simpl orb. cbv iota.
  unfold die, bind, print, exit, started. simpl.
  rewrite <- !app_assoc. reflexivity.
Qed.

End Driver.

(* ===================================================================== *)
(** ** The advisory variant of the loop

    The variant of [main] before automatic deletion (the third unnamed
    source file) prints the delete command instead of running it and
    has a size guard of 100 bytes; it is the variant that reads the
    [--perfect] option. *)
(* ===================================================================== *)

Module Advisory.

(** The body of the loop of that [main] after the
    [potentialMerged == nil] test. *)
Definition report (progOpts : opts) (branch : string)
    (potentialMerged : PotentialMerge) : M unit :=
  if Merged potentialMerged then
    print (OutCleanlyMerged branch (MergedSha potentialMerged)) ;;;
    print (OutDeleteHint branch)
  else if Qgtb (SubjectScore potentialMerged) (MinSubjectScore progOpts)
          && Qgtb (DiffScore potentialMerged) (MinDiffScore progOpts) then
    let perfectDiffMatch :=
      Qeq_bool (DiffScore potentialMerged) 1
      && (100 <? DiffSize potentialMerged)%Z in
    if Perfect progOpts then
      if perfectDiffMatch then print (OutDeleteHint branch) else ret tt
    else
      (if perfectDiffMatch then
         print (OutMerged branch (MergedSha potentialMerged)
                  (SubjectScore potentialMerged) (DiffScore potentialMerged))
       else
         print (OutPotentiallyMerged branch (MergedSha potentialMerged)
                  (SubjectScore potentialMerged) (DiffScore potentialMerged))) ;;;
      (if (1 <? NumCommits potentialMerged)%Z
       then print (OutWarning branch (NumCommits potentialMerged))
       else ret tt) ;;;
      print (OutText (DiffCmd potentialMerged)) ;;;
      print (OutDeleteHint branch) ;;;
      print OutBlank
  else ret tt.

(** X20: in the advisory variant, with [--perfect] set, a fuzzy verdict
    produces either nothing or the single line [git branch -D <branch>],
    the latter only for a diff score of 1.0 on a diff of more than 100
    bytes: no "potentially merged" advisory is written. *)
Theorem perfect_option_restricts_output progOpts branch potentialMerged w :
  Perfect progOpts = true ->
  Merged potentialMerged = false ->
  report progOpts branch potentialMerged w = (Ret tt, w)
  \/ (report progOpts branch potentialMerged w
      = (Ret tt, wrote w [OutDeleteHint branch])
      /\ (DiffScore potentialMerged == 1)%Q
      /\ (100 < DiffSize potentialMerged)%Z).
Proof.
  intros Hp Hm. unfold report. rewrite Hm, Hp.
  destruct (Qgtb _ _ && Qgtb _ _); [|left; reflexivity].
  destruct (Qeq_bool (DiffScore potentialMerged) 1) eqn:E; [|left; reflexivity].
  destruct (100 <? DiffSize potentialMerged)%Z eqn:Z; [|left; reflexivity].
  right. split; [reflexivity|]. split.
  - apply Qeq_bool_iff, E.
  - apply Z.ltb_lt, Z.
Qed.

End Advisory.

(* ===================================================================== *)
(** ** Worked examples, continued *)
(* ===================================================================== *)

Module MoreExamples.

Import Scenario.

(** HEAD is on [feature]. *)
Definition onFeature : list string -> cmd_result :=
  repository
    [(["git"; "for-each-ref"; "--format=%(refname)"; "refs/heads/"],
        text ["refs/heads/feature"; "refs/heads/main"; ""]);
     (["git"; "symbolic-ref"; "HEAD"], "refs/heads/feature" +:+ nl)].

(** The tip [A1] of [old] is not the merge base, and [git log] lists
    nothing between them. *)
Definition stale : list string -> cmd_result :=
  repository
    [(["git"; "merge-base"; "main"; "old"], "A");
     (["git"; "rev-parse"; "old"], "A1");
     (["git"; "log"; "--format=format:%H"; "A..old"], "")].

Definition loginFingerprint (sha added : string) : CommitDiff :=
  {| Sha := sha;
     Subject := "fix login bug";
     Diff := removeGitShaFromGitDiff
               (diffOnly (loginCommit sha "index 650fc525..aa3fa82c 100644"
                            "@@ -6,6 +6,7 @@ func login() {" added)) |}.

Definition plainFingerprint (sha subject : string) : CommitDiff :=
  {| Sha := sha;
     Subject := subject;
     Diff := removeGitShaFromGitDiff (diffOnly (plainCommit sha subject)) |}.

Definition exactVerdict : PotentialMerge :=
  {| Branch := "done"; MergedSha := "B"; Merged := true;
     SubjectScore := 1; DiffScore := 1; DiffSize := 0;
     NumCommits := 0; DiffCmd := "" |}.

Definition fuzzyVerdict (subject diff : Q) (size : Z) : PotentialMerge :=
  {| Branch := "feature"; MergedSha := "D"; Merged := false;
     SubjectScore := subject; DiffScore := diff; DiffSize := size;
     NumCommits := 1;
     DiffCmd := "meld <(git show feature) <(git show C2)" |}.

Lemma getCommits_lists_log_lines_witness :
  getCommits rebased "A" "main" initial
  = (Ret ["C2"; "C"; "B"],
     started initial ["git"; "log"; "--format=format:%H"; "A" +:+ ".." +:+ "main"]).
Proof.
  apply (getCommits_lists_log_lines rebased "A" "main" ["C2"; "C"; "B"] "" initial).
  - vm_compute. reflexivity.
  - repeat constructor.
  - reflexivity.
Defined.




Lemma failed_lookup_not_cached_witness :
  let w' := snd (getCommitDiff merged "B" initial) in
  (forall sha', cached w' sha' = cached initial sha')
  /\ cached w' "B" = None
  /\ runs (showCmd "B") (trace w') = S (runs (showCmd "B") (trace initial)).
Proof.
  apply (failed_lookup_not_cached merged "B" "exit status 128" initial).
  vm_compute. reflexivity.
Defined.

Lemma cache_sound_and_growing_witness :
  (forall sha cd,
     cached (snd (main rebased jw defaults initial)) sha = Some cd ->
     fingerprintOf rebased sha = Ret cd /\ Sha cd = sha)
  /\ (forall w' sha cd,
        reached rebased jw (snd (main rebased jw defaults initial)) w' ->
        cached (snd (main rebased jw defaults initial)) sha = Some cd ->
        cached w' sha = Some cd).
Proof.
  apply (cache_sound_and_growing rebased jw (snd (main rebased jw defaults initial))).
  apply (reached_step rebased jw initial initial); [apply reached_refl|].
  apply step_main.
Defined.

Lemma scanTrunk_keeps_first_best_witness :
  fst (scanTrunk rebased jw (loginFingerprint "D" "+audit()") "" ["C2"; "C"; "B"]
         {| highestSubjectScore := 0; highestDiff := None; highestCombinedDiff := "" |}
         initial)
  = Ret {| highestSubjectScore :=
             jw "fix login bug" (Subject (loginFingerprint "C2" "+audit()")) (1 # 10);
           highestDiff := Some (loginFingerprint "C2" "+audit()");
           highestCombinedDiff := "" |}.
Proof.
  apply (scanTrunk_keeps_first_best rebased jw (loginFingerprint "D" "+audit()") ""
           ["C2"; "C"; "B"]
           [loginFingerprint "C2" "+audit()"; plainFingerprint "C" "update readme";
            plainFingerprint "B" "bump version"]
           (loginFingerprint "C2" "+audit()") initial).
  - apply cache_ok_initial.
  - vm_compute. reflexivity.
  - exists [], [plainFingerprint "C" "update readme"; plainFingerprint "B" "bump version"].
    split; [reflexivity|]. split; [constructor|]. split.
    + repeat constructor; vm_compute; discriminate.
    + vm_compute. reflexivity.
Defined.

Lemma single_commit_verdict_witness :
  fst (findMerged rebased jw "main" "feature" initial)
  = Ret (Some {| Branch := "feature";
                 MergedSha := "D";
                 Merged := false;
                 SubjectScore :=
                   jw "fix login bug" (Subject (loginFingerprint "C2" "+audit()")) (1 # 10);
                 DiffScore :=
                   jw (Diff (loginFingerprint "D" "+audit()"))
                      (Diff (loginFingerprint "C2" "+audit()")) (1 # 10);
                 DiffSize := len (Diff (loginFingerprint "D" "+audit()"));
                 NumCommits := 1;
                 DiffCmd := "meld <(git show " +:+ "feature"
                            +:+ ") <(git show "
                            +:+ Sha (loginFingerprint "C2" "+audit()") +:+ ")" |}).
Proof.
  apply (single_commit_verdict rebased jw "main" "feature" initial "A" "D" "D"
           (loginFingerprint "D" "+audit()") ["C2"; "C"; "B"]
           [loginFingerprint "C2" "+audit()"; plainFingerprint "C" "update readme";
            plainFingerprint "B" "bump version"]
           (loginFingerprint "C2" "+audit()")).
  - apply cache_ok_initial.
  - vm_compute. reflexivity.
  - vm_compute. reflexivity.
  - discriminate.
  - vm_compute. reflexivity.
  - vm_compute. reflexivity.
  - vm_compute. reflexivity.
  - vm_compute. reflexivity.
  - exists [], [plainFingerprint "C" "update readme"; plainFingerprint "B" "bump version"].
    split; [reflexivity|]. split; [constructor|]. split.
    + repeat constructor; vm_compute; discriminate.
    + vm_compute. reflexivity.
Defined.

Lemma no_branch_commits_panics_witness :
  findMerged stale jw "main" "old" initial
  = (Panicked "branchCommits is empty, but if base == branchSha check didnt catch this",
     {| CommitDiffCache := None;
        trace := [] ++ [["git"; "merge-base"; "main"; "old"];
                        ["git"; "rev-parse"; "old"];
                        ["git"; "log"; "--format=format:%H"; "A" +:+ ".." +:+ "old"]];
        written := [] |}).
Proof.
  apply (no_branch_commits_panics stale jw "main" "old" initial "A" "A1").
  - vm_compute. reflexivity.
  - vm_compute. reflexivity.
  - discriminate.
  - vm_compute. reflexivity.
Defined.

Lemma below_threshold_silent_witness :
  report rebased defaults "feature" (fuzzyVerdict (9 # 10) 1 138) initial
  = (Ret tt, initial).
Proof.
  apply (below_threshold_silent rebased defaults "feature"
           (fuzzyVerdict (9 # 10) 1 138) initial).
  - reflexivity.
  - left. vm_compute. discriminate.
Defined.

Lemma imperfect_match_never_deleted_witness :
  fst (report rebased defaults "feature" (fuzzyVerdict 1 1 5) initial) = Ret tt
  /\ trace (snd (report rebased defaults "feature" (fuzzyVerdict 1 1 5) initial))
     = trace initial
  /\ CommitDiffCache (snd (report rebased defaults "feature" (fuzzyVerdict 1 1 5) initial))
     = CommitDiffCache initial.
Proof.
  apply (imperfect_match_never_deleted rebased defaults "feature"
           (fuzzyVerdict 1 1 5) initial).
  - reflexivity.
  - left. vm_compute. discriminate.
Defined.

Lemma perfect_match_deleted_witness :
  report rebased defaults "feature" (fuzzyVerdict 1 1 138) initial
  = (Ret tt,
     {| CommitDiffCache := None;
        trace := [] ++ [["git"; "branch"; "-D"; "feature"]];
        written := [] ++ [OutMerged "feature" "D" 1 1;
                          OutDeleting "feature";
                          OutBlank] |}).
Proof.
  apply (perfect_match_deleted rebased defaults "feature" (fuzzyVerdict 1 1 138)
           "Deleted branch feature" initial).
  - reflexivity.
  - vm_compute. reflexivity.
  - vm_compute. reflexivity.
  - vm_compute. reflexivity.
  - vm_compute. reflexivity.
  - vm_compute. reflexivity.
Defined.

Lemma failed_delete_exits_witness :
  report merged defaults "done" exactVerdict initial
  = (Exited 1,
     {| CommitDiffCache := None;
        trace := [] ++ [["git"; "branch"; "-D"; "done"]];
        written := [] ++ [OutCleanlyMerged "done" "B";
                          OutDeleting "done";
                          ErrDie ("failed to delete branch " +:+ "done")
                            "exit status 128"] |}).
Proof.
  apply (failed_delete_exits merged defaults "done" exactVerdict "exit status 128" initial).
  - reflexivity.
  - vm_compute. reflexivity.
Defined.

Lemma detection_error_is_reported_and_skipped_witness :
  let w' := snd (findMerged merged jw "main" "gone" initial) in
  visit merged jw defaults "main" "gone" initial
  = (Ret tt, wrote w' [ErrIgnoring "gone" "exit status 128"])
  /\ visitAll merged jw defaults "main" ("gone" :: ["done"]) initial
     = visitAll merged jw defaults "main" ["done"]
         (wrote w' [ErrIgnoring "gone" "exit status 128"]).
Proof.
  apply (detection_error_is_reported_and_skipped merged jw defaults "main" "gone"
           ["done"] "exit status 128" initial).
  - discriminate.
  - vm_compute. reflexivity.
Defined.

Lemma main_refuses_other_branch_witness :
  main onFeature jw defaults initial
  = (Exited 1,
     {| CommitDiffCache := None;
        trace := [] ++ [["git"; "for-each-ref"; "--format=%(refname)"; "refs/heads/"];
                        ["git"; "symbolic-ref"; "HEAD"]];
        written := [] ++ [ErrDie "current branch is %s; expected main, master, or trunk"
                            (TrimPrefix (TrimSpace ("refs/heads/feature" +:+ nl))
                               "refs/heads/")] |}).
Proof.
  apply (main_refuses_other_branch onFeature jw defaults
           (text ["refs/heads/feature"; "refs/heads/main"; ""])
           ("refs/heads/feature" +:+ nl) initial).
  - vm_compute. reflexivity.
  - vm_compute. reflexivity.
  - vm_compute. discriminate.
  - vm_compute. discriminate.
  - vm_compute. discriminate.
Defined.

Lemma perfect_option_restricts_output_witness :
  Advisory.report (withPerfect true defaults) "feature"
    (fuzzyVerdict 1 (353 # 355) 138) initial
  = (Ret tt, initial)
  \/ (Advisory.report (withPerfect true defaults) "feature"
        (fuzzyVerdict 1 (353 # 355) 138) initial
      = (Ret tt, wrote initial [OutDeleteHint "feature"])
      /\ (DiffScore (fuzzyVerdict 1 (353 # 355) 138) == 1)%Q
      /\ (100 < DiffSize (fuzzyVerdict 1 (353 # 355) 138))%Z).
Proof.
  apply (Advisory.perfect_option_restricts_output (withPerfect true defaults)
           "feature" (fuzzyVerdict 1 (353 # 355) 138) initial); reflexivity.
Defined.

End MoreExamples.

(* ===================================================================== *)
(** ** What the loop may delete *)
(* ===================================================================== *)

Section Safety.

Variable git : list string -> cmd_result.
Variable JaroWinklerDistance : string -> string -> Q -> Q.

(** Every process started by [m] satisfies [P]. *)
Definition starts {A} (P : list string -> Prop) (m : M A) : Prop :=
  forall w, exists t, trace (snd (m w)) = trace w ++ t /\ Forall P t.

Lemma starts_nothing {A} P (m : M A) :
  (forall w, trace (snd (m w)) = trace w) -> starts P m.
Proof.
  intros H w. exists []. rewrite app_nil_r. split; [apply H|constructor].
Qed.

Lemma starts_bind {A B} P (m : M A) (k : A -> M B) :
  starts P m -> (forall a, starts P (k a)) -> starts P (bind m k).
Proof.
  intros Hm Hk w. unfold bind. destruct (Hm w) as (t1 & T1 & F1).
  destruct (m w) as [[a|e|p|c] w']; simpl in *; eauto.
  destruct (Hk a w') as (t2 & T2 & F2). exists (t1 ++ t2).
  rewrite T2, T1, app_assoc. split; [reflexivity|apply Forall_app; split; assumption].
Qed.

Lemma starts_call {A} P (m : M (option A)) : starts P m -> starts P (call m).
Proof.
  intros Hm w. unfold call. specialize (Hm w).
  destruct (m w) as [[a|e|p|c] w']; exact Hm.
Qed.

Lemma starts_weaken {A} (P Q : list string -> Prop) (m : M A) :
  (forall args, P args -> Q args) -> starts P m -> starts Q m.
Proof.
  intros H Hm w. destruct (Hm w) as (t & T & F). exists t.
  split; [exact T|]. eapply Forall_impl; [exact F|exact H].
Qed.

Lemma starts_Output (P : list string -> Prop) args : P args -> starts P (Output git args).
Proof.
  intros H w. rewrite Output_eq. exists [args].
  split; [reflexivity|repeat constructor; exact H].
Qed.

(** A query, or the deletion of [branch]. *)
Definition query_or_delete (branch : string) (args : list string) : Prop :=
  query_cmd args \/ args = ["git"; "branch"; "-D"; branch].

Lemma starts_report progOpts branch potentialMerged :
  starts (query_or_delete branch) (report git progOpts branch potentialMerged).
Proof.
  assert (D : starts (query_or_delete branch) (deleteOrDie git branch)).
  { unfold deleteOrDie, deleteBranch. apply starts_bind.
    - apply starts_call.
      apply starts_bind; [|intros _; apply starts_nothing; reflexivity].
      apply starts_bind; [apply starts_nothing; reflexivity|intros _].
      apply starts_bind; [|intros _; apply starts_nothing; reflexivity].
      apply starts_Output. right. reflexivity.
    - intros r. destruct (snd r); apply starts_nothing; reflexivity. }
  unfold report.
  repeat match goal with
         | |- starts _ (if ?b then _ else _) => destruct b
         | |- starts _ (bind _ _) => apply starts_bind; [|intros ?]
         | |- starts _ (print _) => apply starts_nothing; reflexivity
         | |- starts _ (ret _) => apply starts_nothing; reflexivity
         | |- starts _ (deleteOrDie _ _) => exact D
         end.
Qed.

(** A query, or the deletion of a branch of [branches] that is not
    [currentBranch]. *)
Definition query_or_cleanup (currentBranch : string) (branches : list string)
    (args : list string) : Prop :=
  query_cmd args
  \/ exists branch,
       args = ["git"; "branch"; "-D"; branch]
       /\ In branch branches /\ branch <> currentBranch.

Lemma starts_visit progOpts currentBranch branch :
  starts (query_or_cleanup currentBranch [branch])
    (visit git JaroWinklerDistance progOpts currentBranch branch).
Proof.
  unfold visit. destruct (decide (branch = currentBranch)) as [|Hne];
    [apply starts_nothing; reflexivity|].
  apply starts_bind.
  - apply starts_call. intros w.
    destruct (only_queries_findMerged git JaroWinklerDistance currentBranch branch w)
      as (_ & t & T & F).
    exists t. split; [exact T|].
    eapply Forall_impl; [exact F|]. intros args H. left. exact H.
  - intros r. apply starts_bind.
    + destruct (snd r); apply starts_nothing; reflexivity.
    + intros _. destruct (fst r) as [pm|]; [|apply starts_nothing; reflexivity].
      eapply starts_weaken; [|apply starts_report].
      intros args [H| ->]; [left; exact H|right].
      exists branch. split; [reflexivity|]. split; [left; reflexivity|exact Hne].
Qed.

(** X21: whatever git answers, the loop of [main] starts only queries
    and deletions, and every deletion is of a branch of the list it was
    given that is not the current branch: trunk is never deleted. *)
Theorem loop_deletes_only_other_listed_branches progOpts currentBranch branches w :
  exists t,
    trace (snd (visitAll git JaroWinklerDistance progOpts currentBranch branches w))
    = trace w ++ t
    /\ Forall (query_or_cleanup currentBranch branches) t
    /\ ~ In ["git"; "branch"; "-D"; currentBranch] t.
Proof.
  assert (S : starts (query_or_cleanup currentBranch branches)
                (visitAll git JaroWinklerDistance progOpts currentBranch branches)).
  { induction branches as [|b bs IH]; [apply starts_nothing; reflexivity|].
    simpl. apply starts_bind.
    - eapply starts_weaken; [|apply starts_visit].
      intros args [H|(x & -> & [<-|[]] & Hne)]; [left; exact H|right].
      exists b. split; [reflexivity|]. split; [left; reflexivity|exact Hne].
    - intros _. eapply starts_weaken; [|exact IH].
      intros args [H|(x & -> & Hin & Hne)]; [left; exact H|right].
      exists x. split; [reflexivity|]. split; [right; exact Hin|exact Hne]. }
  destruct (S w) as (t & T & F). exists t. split; [exact T|]. split; [exact F|].
  intros Hin. rewrite Forall_forall in F. apply list_elem_of_In, F in Hin.
  destruct Hin as [H|(x & [= <-] & _ & Hne)]; [inversion H|contradiction].
Qed.

End Safety.
